(** * Tabletop Audio fulfillment: a shallow embedding of the webhook

    The development follows [functions/src/index.ts] and its
    session-entities sibling, which share every function modelled here
    ([cacheResults], [generateMediaResponse], [getSuggestions],
    [sanitizeTitle], the [Play], [Repeat], [Current], [New], [Help],
    [Search] and media-status handlers).

    Strings.  A JavaScript string is a sequence of UTF-16 code units.  The
    model keeps the code units U+0000..U+00FF: one [ascii] is one code unit
    of that range (Latin-1).  On that range [String.prototype.toLowerCase]
    works unit by unit and stays inside the range, and the class [\w] of a
    regular expression without flags is [A-Za-z0-9_].

    Effects.  A handler mutates the conversation object [conv] and may
    throw; a mutation made before a throw stays made.  Handlers are
    therefore functions [Conv -> Outcome A * Conv].  [Math.random] and the
    remote fetch are read from an environment of oracles, so that every
    run is a function of its inputs. *)

From Stdlib Require Import String Ascii List Bool Arith NArith ZArith Lia.
From Stdlib Require Import Numbers.DecimalString.
From ExtLib Require Import Structures.Monad.
Import ListNotations.
Import MonadNotation.

Local Open Scope string_scope.
Local Open Scope bool_scope.

(** ** Code units *)

Module CodeUnit.

Definition code (c : ascii) : N := N_of_ascii c.

Definition between (lo hi : N) (c : ascii) : bool :=
  ((lo <=? code c) && (code c <=? hi))%N.

(** [\w] without the [u] or [i] flag: [A-Za-z0-9_]. *)
Definition is_word (c : ascii) : bool :=
  between 65 90 c || between 97 122 c || between 48 57 c || (code c =? 95)%N.

(** The code units that have a lower-case partner: [A-Z], and the Latin-1
    capitals U+00C0..U+00DE without the multiplication sign U+00D7. *)
Definition is_upper (c : ascii) : bool :=
  between 65 90 c || (between 192 222 c && negb (code c =? 215)%N).

Definition toLowerCase (c : ascii) : ascii :=
  if is_upper c then ascii_of_N (code c + 32) else c.

Definition colon : ascii := ":"%char.
Definition space : ascii := " "%char.

Definition is_colon (c : ascii) : bool := Ascii.eqb c colon.

End CodeUnit.

(** ** Strings: the methods of [String.prototype] the handlers call *)

Module JsString.

(** [s.toLowerCase()] *)
Fixpoint toLowerCase (s : string) : string :=
  match s with
  | EmptyString => EmptyString
  | String c t => String (CodeUnit.toLowerCase c) (toLowerCase t)
  end.

(** [s.replace(/(\w):(\w)/g, '$1 $2')]: the scan goes from left to right;
    a match consumes its three code units and the scan resumes after
    them, so matches never overlap; where no match starts, one code unit
    is copied. *)
Fixpoint replaceWordColonWord (s : string) : string :=
  match s with
  | EmptyString => EmptyString
  | String a t =>
      match t with
      | String c (String b rest) =>
          if CodeUnit.is_word a && CodeUnit.is_colon c && CodeUnit.is_word b
          then String a (String CodeUnit.space (String b (replaceWordColonWord rest)))
          else String a (replaceWordColonWord t)
      | _ => String a (replaceWordColonWord t)
      end
  end.

(** [s.replace(/:/g, '')] *)
Fixpoint removeColons (s : string) : string :=
  match s with
  | EmptyString => EmptyString
  | String c t =>
      if CodeUnit.is_colon c then removeColons t else String c (removeColons t)
  end.

(** [s.indexOf(search)]: the position of the first occurrence, or [-1]. *)
Definition indexOf (s search : string) : Z :=
  match String.index 0 search s with
  | Some n => Z.of_nat n
  | None => (-1)%Z
  end.

(** [arr.includes(x)] on an array of strings. *)
Definition includes (arr : list string) (x : string) : bool :=
  existsb (String.eqb x) arr.

(** [arr.join(sep)] on an array of strings. *)
Definition join (sep : string) (arr : list string) : string :=
  String.concat sep arr.

(** The decimal digits of a length, as a template literal prints it. *)
Definition ofNat (n : nat) : string :=
  NilEmpty.string_of_uint (Nat.to_uint n).

(** [s] occurs in [t]: some code units, then [s], then some more. *)
Definition Substring (s t : string) : Prop :=
  exists pre post, t = pre ++ s ++ post.

Definition NoColon (s : string) : Prop :=
  forall n, String.get n s <> Some CodeUnit.colon.

(** Every code unit of [s] passes the test [p]. *)
Fixpoint every (p : ascii -> bool) (s : string) : bool :=
  match s with
  | EmptyString => true
  | String c t => p c && every p t
  end.

End JsString.

(** [sanitizeTitle], as both source files define it. *)
Definition sanitizeTitle (title : string) : string :=
  JsString.removeColons
    (JsString.replaceWordColonWord
       (JsString.toLowerCase title)).

(** ** The catalog *)

(** Modelled from the spec: the declarations of [./tabletopAudio]
    ([TabletopAudioTrack], [TabletopAudioResponse]), given there as the JSON
    shape [{ tracks: [ { track_title, track_genre: [string], tags: [string],
    link, large_image, flavor_text } ] }]. *)
Record TabletopAudioTrack : Type := mkTrack {
  track_title : string;
  track_genre : list string;
  tags : list string;
  link : string;
  large_image : string;
  flavor_text : string
}.

Record TabletopAudioResponse : Type := mkResponse {
  tracks : list TabletopAudioTrack
}.

(** ** Response fragments handed to [conv.ask] *)

Record Image : Type := mkImage { image_url : string; image_alt : string }.

Record MediaObject : Type := mkMedia {
  media_name : string;
  media_url : string;
  media_description : string;
  media_image : Image
}.

Record Button : Type := mkButton { button_title : string; button_url : string }.

Record BasicCard : Type := mkCard {
  card_title : string;
  card_image : Image;
  card_buttons : Button
}.

(** A suggestion title is whatever the generator returned: a string, or
    [undefined] ([None]) when it read index 0 of an empty array. *)
Definition Suggestions : Type := list (option string).

Inductive Fragment : Type :=
| Text (s : string)
| Simple (text speech : string)
| Media (m : MediaObject)
| Card (c : BasicCard)
| Chips (s : Suggestions).

Definition is_media (f : Fragment) : bool :=
  match f with Media _ => true | _ => false end.

(** ** Session entities (second source file) *)

Record SessionEntity : Type := mkEntity {
  entity_value : string;
  entity_synonyms : list string
}.

Record SessionEntityType : Type := mkEntityType {
  entity_name : string;
  entity_entities : list SessionEntity
}.

(** ** The conversation object and the world around it *)

Inductive Error : Type :=
| TypeError              (* a property read on [undefined] *)
| FetchFailure           (* [fetch] or [response.json()] rejected *)
| IntentHandlerNotFound. (* the app registers no handler for the intent *)

Inductive Outcome (A : Type) : Type :=
| Returned (a : A)
| Thrown (e : Error).
Arguments Returned {A} a.
Arguments Thrown {A} e.

(** [conv.data.json] and [conv.data.currentTrack] are the session storage;
    [asked] collects the fragments of the turn, oldest first;
    [randomCalls], [fetchCalls] and [fetchStored] count the calls of
    [Math.random], the calls of [fetch], and the fetched documents written
    to the storage. *)
Record Conv : Type := mkConv {
  json : option TabletopAudioResponse;
  currentTrack : option TabletopAudioTrack;
  asked : list Fragment;
  sessionEntities : list SessionEntityType;
  sessionEntitiesSent : bool;
  randomCalls : nat;
  fetchCalls : nat;
  fetchStored : nat
}.

(** The oracles: [random k] is the numerator over [2^53] of the [k]-th
    value of [Math.random()] (reduced to 53 bits when read), [remote k] the
    document the [k]-th [fetch] resolves to, [None] when it rejects. *)
Record Env : Type := mkEnv {
  random : nat -> N;
  remote : nat -> option TabletopAudioResponse
}.

Definition Handler (A : Type) : Type := Conv -> Outcome A * Conv.

#[export] Instance Monad_Handler : Monad Handler := {
  ret := fun _ a conv => (Returned a, conv);
  bind := fun _ _ m k conv =>
    match m conv with
    | (Returned a, conv') => k a conv'
    | (Thrown e, conv') => (Thrown e, conv')
    end
}.

Local Open Scope monad_scope.

Definition throw {A : Type} (e : Error) : Handler A :=
  fun conv => (Thrown e, conv).

Definition getConv : Handler Conv := fun conv => (Returned conv, conv).

Definition modify (f : Conv -> Conv) : Handler unit :=
  fun conv => (Returned tt, f conv).

Definition set_json (j : TabletopAudioResponse) (c : Conv) : Conv :=
  mkConv (Some j) (currentTrack c) (asked c) (sessionEntities c)
         (sessionEntitiesSent c) (randomCalls c) (fetchCalls c) (S (fetchStored c)).

Definition set_currentTrack (t : TabletopAudioTrack) (c : Conv) : Conv :=
  mkConv (json c) (Some t) (asked c) (sessionEntities c)
         (sessionEntitiesSent c) (randomCalls c) (fetchCalls c) (fetchStored c).

Definition push_asked (f : Fragment) (c : Conv) : Conv :=
  mkConv (json c) (currentTrack c) (asked c ++ [f]) (sessionEntities c)
         (sessionEntitiesSent c) (randomCalls c) (fetchCalls c) (fetchStored c).

Definition push_entity (e : SessionEntityType) (c : Conv) : Conv :=
  mkConv (json c) (currentTrack c) (asked c) (sessionEntities c ++ [e])
         (sessionEntitiesSent c) (randomCalls c) (fetchCalls c) (fetchStored c).

Definition mark_sent (c : Conv) : Conv :=
  mkConv (json c) (currentTrack c) (asked c) (sessionEntities c)
         true (randomCalls c) (fetchCalls c) (fetchStored c).

Definition tick_random (c : Conv) : Conv :=
  mkConv (json c) (currentTrack c) (asked c) (sessionEntities c)
         (sessionEntitiesSent c) (S (randomCalls c)) (fetchCalls c) (fetchStored c).

Definition tick_fetch (c : Conv) : Conv :=
  mkConv (json c) (currentTrack c) (asked c) (sessionEntities c)
         (sessionEntitiesSent c) (randomCalls c) (S (fetchCalls c)) (fetchStored c).

(** [conv.ask(fragment)] *)
Definition ask (f : Fragment) : Handler unit := modify (push_asked f).

(** [conv.data.json.tracks]: a [TypeError] while the catalog is unset. *)
Definition dataTracks : Handler (list TabletopAudioTrack) :=
  conv <- getConv ;;
  match json conv with
  | Some j => ret (tracks j)
  | None => throw TypeError
  end.

(** [arr[0].field]: a [TypeError] on an empty array. *)
Definition firstTrack (l : list TabletopAudioTrack) : Handler TabletopAudioTrack :=
  match l with
  | t :: _ => ret t
  | [] => throw TypeError
  end.

(** A template literal prints [undefined] by its name. *)
Definition interpolate (v : option string) : string :=
  match v with
  | Some s => s
  | None => "undefined"
  end.

Definition dquote : string := String (ascii_of_nat 34) EmptyString.

(** ** The functions of the webhook *)

Definition generateMediaResponse (track : TabletopAudioTrack) : MediaObject :=
  mkMedia (track_title track) (link track) (flavor_text track)
          (mkImage (large_image track) ("Track art for " ++ track_title track)).

Definition getSuggestionTrackTitle (track : TabletopAudioTrack) : option string :=
  Some (track_title track).

(** [track.track_genre[0]] is [undefined] on an empty array. *)
Definition getSuggestionTrackGenre (track : TabletopAudioTrack) : option string :=
  nth_error (track_genre track) 0.

Definition getSuggestionTag (track : TabletopAudioTrack) : option string :=
  nth_error (tags track) 0.

Definition SuggestionGenerator : Type := TabletopAudioTrack -> option string.

Definition suggestionGenerators : list SuggestionGenerator :=
  [getSuggestionTrackTitle; getSuggestionTrackGenre; getSuggestionTag].

(** The insertion-ordered [Set] of [setSessionEntities]. *)
Definition setAdd (s : list string) (x : string) : list string :=
  if JsString.includes s x then s else (s ++ [x])%list.

Definition entityOf (name : string) : SessionEntity := mkEntity name [name].

(** How the [for ... of] loop of the play handler ends: by the [return]
    inside it, or by running out of tracks. *)
Inductive LoopExit : Type :=
| FunctionReturned
| LoopDone (searchResults : list TabletopAudioTrack).

Section Webhook.

Variable env : Env.

(** [Math.random()], as a numerator over [2^53]. *)
Definition mathRandom : Handler N :=
  conv <- getConv ;;
  modify tick_random ;;
  ret (random env (randomCalls conv) mod 2 ^ 53)%N.

(** [Math.floor(Math.random() * n)], the product taken exactly. *)
Definition randomIndex (n : nat) : Handler nat :=
  r <- mathRandom ;;
  ret (N.to_nat (r * N.of_nat n / 2 ^ 53)).

(** [await fetch(tabletopAudioUrl)] then [await response.json()]. *)
Definition fetchJson : Handler TabletopAudioResponse :=
  conv <- getConv ;;
  modify tick_fetch ;;
  match remote env (fetchCalls conv) with
  | Some j => ret j
  | None => throw FetchFailure
  end.

Definition cacheResults : Handler unit :=
  conv <- getConv ;;
  match json conv with
  | None =>
      j <- fetchJson ;;
      modify (set_json j)
  | Some _ => ret tt
  end.

Definition setSessionEntities : Handler unit :=
  catalog <- dataTracks ;;
  let trackTitles := fold_left setAdd (map track_title catalog) [] in
  let trackGenres :=
    fold_left (fun acc track => fold_left setAdd (track_genre track) acc) catalog [] in
  let trackTags :=
    fold_left (fun acc track => fold_left setAdd (tags track) acc) catalog [] in
  modify (push_entity (mkEntityType "track" (map entityOf trackTitles))) ;;
  modify (push_entity (mkEntityType "genre" (map entityOf trackGenres))) ;;
  modify (push_entity (mkEntityType "tag" (map entityOf trackTags))).

(** The body of the [for] loop of [getSuggestions], for the values of [i]
    still to come.  A generator applied to [undefined] throws. *)
Fixpoint getSuggestionsLoop (catalog : list TabletopAudioTrack) (indices : list nat)
         (suggestions : Suggestions) : Handler Suggestions :=
  match indices with
  | [] => ret suggestions
  | i :: later =>
      idx <- randomIndex (length catalog) ;;
      let mod3 := i mod 3 in
      match nth_error suggestionGenerators mod3, nth_error catalog idx with
      | Some generator, Some randomTrack =>
          getSuggestionsLoop catalog later (suggestions ++ [generator randomTrack])%list
      | _, _ => throw TypeError
      end
  end.

Definition getSuggestions (catalog : list TabletopAudioTrack) : Handler Suggestions :=
  getSuggestionsLoop catalog (seq 0 6) [].

(** [suggestions.suggestions[0].title] inside a template literal. *)
Definition firstSuggestion (s : Suggestions) : Handler string :=
  match s with
  | first :: _ => ret (interpolate first)
  | [] => throw TypeError
  end.

(** The [for ... of] loop of [searchAndPlay] (the [Play] handler of
    [index.ts] has the same body inline). *)
Fixpoint playLoop (search : string) (remaining : list TabletopAudioTrack)
         (searchResults : list TabletopAudioTrack) : Handler LoopExit :=
  match remaining with
  | [] => ret (LoopDone searchResults)
  | track :: later =>
      let title := sanitizeTitle (track_title track) in
      let genres := map JsString.toLowerCase (track_genre track) in
      let tags' := map JsString.toLowerCase (tags track) in
      if (-1 <? JsString.indexOf title search)%Z then
        ask (Text ("Here is " ++ track_title track ++ ".")) ;;
        ask (Media (generateMediaResponse track)) ;;
        catalog <- dataTracks ;;
        chips <- getSuggestions catalog ;;
        ask (Chips chips) ;;
        modify (set_currentTrack track) ;;
        ret FunctionReturned
      else if JsString.includes genres search || JsString.includes tags' search then
        playLoop search later (searchResults ++ [track])%list
      else
        playLoop search later searchResults
  end.

Definition searchAndPlay (searchString : string) : Handler unit :=
  let search := sanitizeTitle searchString in
  catalog <- dataTracks ;;
  exit <- playLoop search catalog [] ;;
  match exit with
  | FunctionReturned => ret tt
  | LoopDone searchResults =>
      if negb (length searchResults =? 0)%nat then
        idx <- randomIndex (length searchResults) ;;
        match nth_error searchResults idx with
        | None => throw TypeError
        | Some track =>
            ask (Text ("I found several tracks for the category " ++ search ++
                       ". Here is one at random: " ++ track_title track ++ ".")) ;;
            ask (Media (generateMediaResponse track)) ;;
            catalog' <- dataTracks ;;
            chips <- getSuggestions catalog' ;;
            ask (Chips chips) ;;
            modify (set_currentTrack track)
        end
      else
        catalog' <- dataTracks ;;
        suggestions <- getSuggestions catalog' ;;
        first <- firstSuggestion suggestions ;;
        ask (Simple
               "I can't find a track with that description. What else do you want to listen to?"
               ("I can't find a track with that description, but I found others like " ++
                first ++ ". " ++
                "You can also ask " ++ dquote ++ "What are the latest tracks?" ++ dquote ++ ". " ++
                "What would you like to listen to?")) ;;
        ask (Chips suggestions)
  end.

Definition Play (search : string) : Handler unit := searchAndPlay search.

(** [params.title || params.genre || params.tag]: the first truthy one,
    else the last. *)
Definition truthy (v : option string) : bool :=
  match v with
  | Some s => negb (String.eqb s EmptyString)
  | None => false
  end.

Definition orElse (a b : option string) : option string :=
  if truthy a then a else b.

Definition PlayEntity (title genre tag : option string) : Handler unit :=
  let searchString := orElse (orElse title genre) tag in
  match searchString with
  | Some s =>
      if truthy searchString then searchAndPlay s
      else ask (Text "I apologize, I do not know what you are looking for. What do you want to play?")
  | None =>
      ask (Text "I apologize, I do not know what you are looking for. What do you want to play?")
  end.

Definition Repeat : Handler unit :=
  conv <- getConv ;;
  match currentTrack conv with
  | None =>
      ask (Text ("Sorry, I do not know what track you want to play. " ++
                 "What else do you want to listen to?")) ;;
      catalog <- dataTracks ;;
      chips <- getSuggestions catalog ;;
      ask (Chips chips)
  | Some track =>
      ask (Text ("Once again, here's " ++ track_title track)) ;;
      ask (Media (generateMediaResponse track)) ;;
      catalog <- dataTracks ;;
      chips <- getSuggestions catalog ;;
      ask (Chips chips)
  end.

Definition Current : Handler unit :=
  conv <- getConv ;;
  match currentTrack conv with
  | None =>
      ask (Text "Sorry, I don't think anything is playing. What do you want to listen to?") ;;
      catalog <- dataTracks ;;
      chips <- getSuggestions catalog ;;
      ask (Chips chips)
  | Some track =>
      ask (Text ("This is " ++ track_title track ++ " from Tabletop Audio. " ++
                 flavor_text track)) ;;
      catalog <- dataTracks ;;
      chips <- getSuggestions catalog ;;
      ask (Chips chips)
  end.

Definition New : Handler unit :=
  catalog <- dataTracks ;;
  let newestTracks := firstn 3 catalog in
  ask (Text ("The last three tracks added to Tabletop Audio are: " ++
             JsString.join "," (map track_title newestTracks) ++
             ". What do you want to listen to?")) ;;
  ask (Chips (map (fun track => Some (track_title track)) newestTracks)).

Definition Help : Handler unit :=
  catalog <- dataTracks ;;
  first <- firstTrack catalog ;;
  ask (Text ("Tabletop Audio is the premier advertising-free, free-to-use, and user-supported " ++
             "ambient game audio site on the Internet. Visit the website to view a complete list of " ++
             "tracks. You can also ask me " ++ dquote ++ "What are the latest tracks" ++ dquote ++
             ", ask for a specific song like " ++
             track_title first ++ ", or ask to play music from a genre like " ++
             JsString.join "," (track_genre first) ++ ". What do you want to do?")) ;;
  ask (Card (mkCard "Tabletop Audio"
               (mkImage "https://firebasestorage.googleapis.com/v0/b/tabletopaudio.appspot.com/o/Screenshot%20from%202019-05-20%2011-48-52.png?alt=media"
                        "Tabletop Audio banner image")
               (mkButton "View website" "https://tabletopaudio.com"))).

(** The [for ... of] loop of the [Search] handler; it calls nothing on
    [conv]. *)
Fixpoint searchLoop (search : string) (remaining : list TabletopAudioTrack)
         (trackOut : list string) : list string :=
  match remaining with
  | [] => trackOut
  | track :: later =>
      let title := JsString.toLowerCase (track_title track) in
      let genres := map JsString.toLowerCase (track_genre track) in
      let tags' := map JsString.toLowerCase (tags track) in
      if (-1 <? JsString.indexOf title search)%Z
         || JsString.includes genres search || JsString.includes tags' search
      then searchLoop search later (trackOut ++ [track_title track])%list
      else searchLoop search later trackOut
  end.

Definition Search (searchParam : string) : Handler unit :=
  let search := JsString.toLowerCase searchParam in
  catalog <- dataTracks ;;
  let trackOut := searchLoop search catalog [] in
  if (length trackOut =? 1)%nat then
    ask (Text ("There is 1 track. It is called " ++ interpolate (nth_error trackOut 0) ++
               ". What should I play?"))
  else if (1 <? length trackOut)%nat then
    ask (Text ("There are " ++ JsString.ofNat (length trackOut) ++ " tracks that I found.")) ;;
    ask (Text ("The first three are called " ++ JsString.join ", " (firstn 3 trackOut) ++
               ". What should I play?")) ;;
    ask (Chips (map Some (firstn 8 trackOut)))
  else
    catalog' <- dataTracks ;;
    suggestions <- getSuggestions catalog' ;;
    first <- firstSuggestion suggestions ;;
    ask (Simple
           "I am unable to find that audio for you. What else do you want to listen to?"
           ("I am unable to find that audio, but I found others like " ++
            first ++ ". What would you like to listen to?")) ;;
    ask (Chips suggestions).

(** [mediaStatus] is the [status] of the [MEDIA_STATUS] argument, [None]
    when the request carries no such argument. *)
Definition MediaStatus (mediaStatus : option string) : Handler unit :=
  let response :=
    match mediaStatus with
    | Some status =>
        if String.eqb status "FINISHED"
        then "Hope you enjoyed that song. What else do you want to listen to?"
        else "Unknown media status received."
    | None => "Unknown media status received."
    end in
  ask (Text response) ;;
  ask (Chips [Some "Repeat"]) ;;
  catalog <- dataTracks ;;
  chips <- getSuggestions catalog ;;
  ask (Chips chips).

(** [Default Welcome Intent] of [index.ts]. *)
Definition WelcomePlain : Handler unit :=
  catalog <- dataTracks ;;
  first <- firstTrack catalog ;;
  ask (Simple
         ("Welcome to Tabletop Audio! I can play a specific track, " ++
          "or start playing based on a genre. What do you want to listen to?")
         ("Welcome to Tabletop Audio! I can play a specific track " ++
          "like " ++ track_title first ++ ", or start playing based on a genre like " ++
          JsString.join "," (track_genre first) ++ ". What do you want to listen to?")) ;;
  chips <- getSuggestions catalog ;;
  ask (Chips chips).

(** [Default Welcome Intent] of the session-entities file; [lastSeen] is
    the truth value of [conv.user.last.seen]. *)
Definition WelcomeEntities (lastSeen : bool) : Handler unit :=
  catalog <- dataTracks ;;
  first <- firstTrack catalog ;;
  (if lastSeen then
     ask (Simple
            "Welcome back! What do you want to listen to?"
            ("Welcome back! By the way, the track " ++
             track_title first ++ " was recently added. " ++
             "What do you want to listen to?")) ;;
     ask (Chips [Some (track_title first)]) ;;
     ask (Chips [Some "What's new?"])
   else
     ask (Simple
            ("Welcome to Tabletop Audio! I can play a specific track, " ++
             "or start playing based on a genre. What do you want to listen to?")
            ("Welcome to Tabletop Audio! I can play a specific track " ++
             "like " ++ track_title first ++ ", or start playing based on a genre like " ++
             JsString.join "," (track_genre first) ++ ". What do you want to listen to?")) ;;
     ask (Chips [Some "Help"]) ;;
     ask (Chips [Some "What's new?"])) ;;
  chips <- getSuggestions catalog ;;
  ask (Chips chips) ;;
  modify mark_sent.

End Webhook.

(** ** Intents, turns and sessions *)

Inductive Variant : Type :=
| PlainApp            (* [functions/src/index.ts] *)
| SessionEntitiesApp. (* the file with the session-entities plugin *)

Inductive Intent : Type :=
| DefaultWelcomeIntent (lastSeen : bool)
| PlayIntent (search : string)
| PlayEntityIntent (title genre tag : option string)
| RepeatIntent
| CurrentIntent
| NewIntent
| HelpIntent
| SearchIntent (search : string)
| MediaStatusIntent (mediaStatus : option string).

Definition middleware (env : Env) (v : Variant) : Handler unit :=
  match v with
  | PlainApp => cacheResults env
  | SessionEntitiesApp => cacheResults env ;; setSessionEntities
  end.

Definition handle (env : Env) (v : Variant) (i : Intent) : Handler unit :=
  match i with
  | DefaultWelcomeIntent lastSeen =>
      match v with
      | PlainApp => WelcomePlain env
      | SessionEntitiesApp => WelcomeEntities env lastSeen
      end
  | PlayIntent search => Play env search
  | PlayEntityIntent title genre tag =>
      match v with
      | PlainApp => throw IntentHandlerNotFound
      | SessionEntitiesApp => PlayEntity env title genre tag
      end
  | RepeatIntent => Repeat env
  | CurrentIntent => Current env
  | NewIntent => New
  | HelpIntent => Help
  | SearchIntent search => Search env search
  | MediaStatusIntent mediaStatus => MediaStatus env mediaStatus
  end.

(** One request: the middleware, then the handler of the intent. *)
Definition turn (env : Env) (v : Variant) (i : Intent) : Handler unit :=
  middleware env v ;; handle env v i.

(** The conversation object of the next request: the session storage is
    carried over, the response collector starts empty. *)
Definition nextRequest (c : Conv) : Conv :=
  mkConv (json c) (currentTrack c) [] [] false
         (randomCalls c) (fetchCalls c) (fetchStored c).

(** The conversation object a turn leaves, whether its handler returned or
    threw: what was written before a throw stays written. *)
Definition runTurn (env : Env) (v : Variant) (c : Conv) (i : Intent) : Conv :=
  snd (turn env v i (nextRequest c)).

(** The turns of a session, one intent after the other. *)
Definition runSession (env : Env) (v : Variant) (intents : list Intent) (c : Conv) : Conv :=
  fold_left (runTurn env v) intents c.

(** The conversation object of the first request of a session. *)
Definition freshConv : Conv := mkConv None None [] [] false 0 0 0.

(** ** The play handler as a matcher

    [scanTracks] is [playLoop] with the calls on [conv] taken out: it keeps
    the tests and the accumulator, and says where the loop ends.
    [matchTracks] adds the test [searchResults.length] that follows the
    loop.  Lemma [searchAndPlay_matchTracks] below shows that the handler
    does what [matchTracks] says. *)

Inductive MatchResult : Type :=
| ExactTitle (track : TabletopAudioTrack)
| CategorySet (found : list TabletopAudioTrack)
| NoMatch.

Fixpoint scanTracks (search : string) (remaining : list TabletopAudioTrack)
         (searchResults : list TabletopAudioTrack)
  : TabletopAudioTrack + list TabletopAudioTrack :=
  match remaining with
  | [] => inr searchResults
  | track :: later =>
      let title := sanitizeTitle (track_title track) in
      let genres := map JsString.toLowerCase (track_genre track) in
      let tags' := map JsString.toLowerCase (tags track) in
      if (-1 <? JsString.indexOf title search)%Z then inl track
      else if JsString.includes genres search || JsString.includes tags' search then
        scanTracks search later (searchResults ++ [track])
      else
        scanTracks search later searchResults
  end.

Definition matchTracks (catalog : list TabletopAudioTrack) (searchString : string)
  : MatchResult :=
  match scanTracks (sanitizeTitle searchString) catalog [] with
  | inl track => ExactTitle track
  | inr searchResults =>
      if negb (length searchResults =? 0)%nat then CategorySet searchResults else NoMatch
  end.

(** The three blocks of [searchAndPlay] that answer the user. *)
Definition exactReply (env : Env) (track : TabletopAudioTrack) : Handler unit :=
  ask (Text ("Here is " ++ track_title track ++ ".")) ;;
  ask (Media (generateMediaResponse track)) ;;
  catalog <- dataTracks ;;
  chips <- getSuggestions env catalog ;;
  ask (Chips chips) ;;
  modify (set_currentTrack track).

Definition categoryReply (env : Env) (search : string)
           (searchResults : list TabletopAudioTrack) : Handler unit :=
  idx <- randomIndex env (length searchResults) ;;
  match nth_error searchResults idx with
  | None => throw TypeError
  | Some track =>
      ask (Text ("I found several tracks for the category " ++ search ++
                 ". Here is one at random: " ++ track_title track ++ ".")) ;;
      ask (Media (generateMediaResponse track)) ;;
      catalog' <- dataTracks ;;
      chips <- getSuggestions env catalog' ;;
      ask (Chips chips) ;;
      modify (set_currentTrack track)
  end.

Definition noMatchReply (env : Env) : Handler unit :=
  catalog' <- dataTracks ;;
  suggestions <- getSuggestions env catalog' ;;
  first <- firstSuggestion suggestions ;;
  ask (Simple
         "I can't find a track with that description. What else do you want to listen to?"
         ("I can't find a track with that description, but I found others like " ++
          first ++ ". " ++
          "You can also ask " ++ dquote ++ "What are the latest tracks?" ++ dquote ++ ". " ++
          "What would you like to listen to?")) ;;
  ask (Chips suggestions).

(** ** Vocabulary of the statements *)

(** The catalog a handler sees; none before the first fetch. *)
Definition catalogOf (c : Conv) : list TabletopAudioTrack :=
  match json c with
  | Some j => tracks j
  | None => []
  end.

(** The index [Math.floor(Math.random() * n)] of the [k]-th draw. *)
Definition drawIndex (env : Env) (k n : nat) : nat :=
  N.to_nat ((random env k mod 2 ^ 53) * N.of_nat n / 2 ^ 53).

Definition add_random (n : nat) (c : Conv) : Conv :=
  mkConv (json c) (currentTrack c) (asked c) (sessionEntities c)
         (sessionEntitiesSent c) (n + randomCalls c) (fetchCalls c) (fetchStored c).

Definition add_asked (fs : list Fragment) (c : Conv) : Conv :=
  mkConv (json c) (currentTrack c) (asked c ++ fs) (sessionEntities c)
         (sessionEntitiesSent c) (randomCalls c) (fetchCalls c) (fetchStored c).

(** What slot [i] of a suggestion list shows of a track. *)
Definition slotField (i : nat) (track : TabletopAudioTrack) : option string :=
  match i mod 3 with
  | 0 => Some (track_title track)
  | 1 => nth_error (track_genre track) 0
  | _ => nth_error (tags track) 0
  end.

(** The suggestions produced for the slots [indices] when the first of
    them uses draw number [k]. *)
Fixpoint slots (env : Env) (catalog : list TabletopAudioTrack) (k : nat)
         (indices : list nat) : Suggestions :=
  match indices with
  | [] => []
  | i :: later =>
      match nth_error catalog (drawIndex env k (length catalog)) with
      | Some track => slotField i track
      | None => None
      end :: slots env catalog (S k) later
  end.

(** The two tests of the loop of the play handler, on a search term that
    is already normalized. *)
Definition titleTest (search : string) (track : TabletopAudioTrack) : bool :=
  (-1 <? JsString.indexOf (sanitizeTitle (track_title track)) search)%Z.

Definition categoryTest (search : string) (track : TabletopAudioTrack) : bool :=
  JsString.includes (map JsString.toLowerCase (track_genre track)) search
  || JsString.includes (map JsString.toLowerCase (tags track)) search.

(** The title of a track contains the search term, both normalized. *)
Definition TitleHit (searchString : string) (track : TabletopAudioTrack) : Prop :=
  JsString.Substring (sanitizeTitle searchString) (sanitizeTitle (track_title track)).

(** The normalized search term is one of the lower-cased genres or tags. *)
Definition CategoryHit (searchString : string) (track : TabletopAudioTrack) : Prop :=
  In (sanitizeTitle searchString) (map JsString.toLowerCase (track_genre track)) \/
  In (sanitizeTitle searchString) (map JsString.toLowerCase (tags track)).

Definition categoryHitb (searchString : string) (track : TabletopAudioTrack) : bool :=
  categoryTest (sanitizeTitle searchString) track.


(** A hit of the [Search] handler. *)
Definition SearchHit (searchParam : string) (track : TabletopAudioTrack) : Prop :=
  JsString.Substring (JsString.toLowerCase searchParam)
                     (JsString.toLowerCase (track_title track)) \/
  In (JsString.toLowerCase searchParam) (map JsString.toLowerCase (track_genre track)) \/
  In (JsString.toLowerCase searchParam) (map JsString.toLowerCase (tags track)).

Definition searchHitb (searchParam : string) (track : TabletopAudioTrack) : bool :=
  (-1 <? JsString.indexOf (JsString.toLowerCase (track_title track))
                          (JsString.toLowerCase searchParam))%Z
  || JsString.includes (map JsString.toLowerCase (track_genre track))
                       (JsString.toLowerCase searchParam)
  || JsString.includes (map JsString.toLowerCase (tags track))
                       (JsString.toLowerCase searchParam).

(** The global replacement of [word:word], as a relation: matches are taken
    leftmost first and do not overlap. *)
Inductive ColonSpaced : string -> string -> Prop :=
| CS_end : ColonSpaced EmptyString EmptyString
| CS_match (a b : ascii) (rest out : string) :
    CodeUnit.is_word a = true -> CodeUnit.is_word b = true ->
    ColonSpaced rest out ->
    ColonSpaced (String a (String CodeUnit.colon (String b rest)))
                (String a (String CodeUnit.space (String b out)))
| CS_copy (a : ascii) (t out : string) :
    (forall b rest, t = String CodeUnit.colon (String b rest) ->
                    CodeUnit.is_word a && CodeUnit.is_word b = false) ->
    ColonSpaced t out ->
    ColonSpaced (String a t) (String a out).

(** Every colon dropped, everything else kept in order. *)
Inductive ColonsDropped : string -> string -> Prop :=
| CD_end : ColonsDropped EmptyString EmptyString
| CD_drop (t out : string) :
    ColonsDropped t out -> ColonsDropped (String CodeUnit.colon t) out
| CD_keep (a : ascii) (t out : string) :
    a <> CodeUnit.colon -> ColonsDropped t out ->
    ColonsDropped (String a t) (String a out).

(** Unit by unit, [out] is the lower-case form of [s]. *)
Inductive LowerCased : string -> string -> Prop :=
| LC_end : LowerCased EmptyString EmptyString
| LC_unit (a : ascii) (t out : string) :
    LowerCased t out ->
    LowerCased (String a t)
               (String (if CodeUnit.is_upper a
                        then ascii_of_N (CodeUnit.code a + 32) else a) out).

(** A handler [m] keeps the relation [R] between the conversation object
    it receives and the one it leaves, whether it returns or throws. *)
Definition Frames {A : Type} (R : Conv -> Conv -> Prop) (m : Handler A) : Prop :=
  forall conv, R conv (snd (m conv)).

(** The catalog and the fetch counters are the same. *)
Definition SameCatalog (c c' : Conv) : Prop :=
  json c' = json c /\ fetchCalls c' = fetchCalls c /\ fetchStored c' = fetchStored c.

(** The current track is the same. *)
Definition SameCurrent (c c' : Conv) : Prop :=
  currentTrack c' = currentTrack c.

(** The media objects handed to [conv.ask], oldest first. *)
Definition mediaAsked (c : Conv) : list Fragment := filter is_media (asked c).

Definition SameMedia (c c' : Conv) : Prop :=
  mediaAsked c' = mediaAsked c.

(** What follows the cache step in a turn. *)
Definition afterCache (env : Env) (v : Variant) (i : Intent) : Handler unit :=
  match v with
  | PlainApp => handle env v i
  | SessionEntitiesApp => setSessionEntities ;; handle env v i
  end.


(** The media objects of [c'] are those of [c], or those and one more,
    which then is the one of the current track of [c']. *)
Definition MediaOfCurrent (c c' : Conv) : Prop :=
  mediaAsked c' = mediaAsked c \/
  exists t, currentTrack c' = Some t /\
            mediaAsked c' = (mediaAsked c ++ [Media (generateMediaResponse t)])%list.

(** The current track is kept, or replaced by a track of the catalog. *)
Definition CurrentFromCatalog (c c' : Conv) : Prop :=
  currentTrack c' = currentTrack c \/
  exists t, In t (catalogOf c) /\ currentTrack c' = Some t.

(** The current track, when there is one, is a track of the catalog. *)
Definition CurrentInCatalog (c : Conv) : Prop :=
  forall t, currentTrack c = Some t -> In t (catalogOf c).

Definition add_entities (es : list SessionEntityType) (c : Conv) : Conv :=
  mkConv (json c) (currentTrack c) (asked c) (sessionEntities c ++ es)
         (sessionEntitiesSent c) (randomCalls c) (fetchCalls c) (fetchStored c).

(** The values of a [Set] of strings after adding the elements of [l]. *)
Definition setOf (l : list string) : list string := fold_left setAdd l [].

Definition noColon (s : string) : bool :=
  JsString.every (fun c => negb (CodeUnit.is_colon c)) s.


(** What the cache step and [setSessionEntities] leave alone. *)
Definition SameTalk (c c' : Conv) : Prop :=
  currentTrack c' = currentTrack c /\ asked c' = asked c /\
  sessionEntitiesSent c' = sessionEntitiesSent c /\ randomCalls c' = randomCalls c.

(** Sample catalog entries used by the examples. *)
Definition forestDay : TabletopAudioTrack :=
  mkTrack "Forest: Day" ["Ambient"] ["nature"]
          "https://sounds.tabletopaudio.com/forest_day.mp3"
          "https://images.tabletopaudio.com/forest_day.jpg"
          "Birdsong under the canopy.".

Definition forestDayNight : TabletopAudioTrack :=
  mkTrack "Forest: Day Night" ["Ambient"] ["nature"]
          "https://sounds.tabletopaudio.com/forest_day_night.mp3"
          "https://images.tabletopaudio.com/forest_day_night.jpg"
          "From dusk to dawn in the woods.".

Definition starshipBridge : TabletopAudioTrack :=
  mkTrack "Starship Bridge" ["Sci Fi"] ["space"; "combat"]
          "https://sounds.tabletopaudio.com/starship_bridge.mp3"
          "https://images.tabletopaudio.com/starship_bridge.jpg"
          "The hum of the command deck.".

Definition arena : TabletopAudioTrack :=
  mkTrack "Arena" ["Fantasy"] ["combat"]
          "https://sounds.tabletopaudio.com/arena.mp3"
          "https://images.tabletopaudio.com/arena.jpg"
          "Steel on steel, and a roaring crowd.".

Definition sampleEnv : Env := mkEnv (fun k => N.of_nat k * 2 ^ 51)%N (fun _ => None).

Definition sampleConv (catalog : list TabletopAudioTrack) : Conv :=
  mkConv (Some (mkResponse catalog)) None [] [] false 0 0 0.

(** * Properties *)

(** ** Code units and strings *)

Ltac each_unit c := destruct c as [[] [] [] [] [] [] [] []]; vm_compute; try reflexivity.

Lemma unit_toLowerCase_not_colon (c : ascii) :
  CodeUnit.is_colon (CodeUnit.toLowerCase c) = CodeUnit.is_colon c.
Proof. each_unit c. Qed.

Lemma unit_toLowerCase_not_upper (c : ascii) :
  CodeUnit.is_upper (CodeUnit.toLowerCase c) = false.
Proof. each_unit c. Qed.

Lemma unit_toLowerCase_fixed (c : ascii) :
  CodeUnit.is_upper c = false -> CodeUnit.toLowerCase c = c.
Proof. unfold CodeUnit.toLowerCase. intros ->. reflexivity. Qed.

Lemma is_colon_true (c : ascii) : CodeUnit.is_colon c = true <-> c = CodeUnit.colon.
Proof. unfold CodeUnit.is_colon. apply Ascii.eqb_eq. Qed.

Lemma is_colon_false (c : ascii) : CodeUnit.is_colon c = false <-> c <> CodeUnit.colon.
Proof. unfold CodeUnit.is_colon. apply Ascii.eqb_neq. Qed.

Lemma colon_not_word : CodeUnit.is_word CodeUnit.colon = false.
Proof. reflexivity. Qed.

Lemma every_toLowerCase (s : string) :
  JsString.every (fun c => negb (CodeUnit.is_upper c)) (JsString.toLowerCase s) = true.
Proof.
  induction s as [|c t IH]; simpl; [reflexivity|].
  now rewrite unit_toLowerCase_not_upper, IH.
Qed.

Lemma toLowerCase_fixed (s : string) :
  JsString.every (fun c => negb (CodeUnit.is_upper c)) s = true ->
  JsString.toLowerCase s = s.
Proof.
  induction s as [|c t IH]; simpl; [reflexivity|].
  intros H. apply andb_true_iff in H as [Hc Ht].
  rewrite unit_toLowerCase_fixed, IH; auto.
  now apply negb_true_iff.
Qed.

Lemma toLowerCase_idempotent (s : string) :
  JsString.toLowerCase (JsString.toLowerCase s) = JsString.toLowerCase s.
Proof. apply toLowerCase_fixed, every_toLowerCase. Qed.

Lemma toLowerCase_LowerCased (s : string) :
  LowerCased s (JsString.toLowerCase s).
Proof. induction s as [|c t IH]; simpl; constructor; exact IH. Qed.

(** The replacement keeps a string made of lower-case units lower-case: it
    only adds spaces. *)
Lemma every_replaceWordColonWord (p : ascii -> bool) (s : string) :
  p CodeUnit.space = true ->
  JsString.every p s = true ->
  JsString.every p (JsString.replaceWordColonWord s) = true.
Proof.
  intros Hsp. 
  assert (G : forall n s, String.length s <= n -> JsString.every p s = true ->
               JsString.every p (JsString.replaceWordColonWord s) = true).
  { induction n as [|n IH]; intros u Hlen Hu.
    - destruct u; simpl in *; [reflexivity | lia].
    - destruct u as [|a [|c [|b rest]]]; simpl in *; try reflexivity.
      + exact Hu.
      + apply andb_true_iff in Hu as [Ha Hc]. rewrite Ha. exact Hc.
      + apply andb_true_iff in Hu as [Ha Hu].
        apply andb_true_iff in Hu as [Hc Hu].
        apply andb_true_iff in Hu as [Hb Hu].
        destruct (CodeUnit.is_word a && CodeUnit.is_colon c && CodeUnit.is_word b).
        * simpl. rewrite Ha, Hsp, Hb. simpl. apply IH; [lia | exact Hu].
        * simpl. rewrite Ha. simpl.
          apply (IH (String c (String b rest))); [simpl; lia|].
          simpl. now rewrite Hc, Hb, Hu. }
  intros H. exact (G (String.length s) s (le_n _) H).
Qed.

Lemma every_removeColons (p : ascii -> bool) (s : string) :
  JsString.every p s = true -> JsString.every p (JsString.removeColons s) = true.
Proof.
  induction s as [|c t IH]; simpl; [reflexivity|].
  intros H. apply andb_true_iff in H as [Hc Ht].
  destruct (CodeUnit.is_colon c); simpl; [auto | now rewrite Hc, IH].
Qed.

Lemma removeColons_no_colon (s : string) :
  JsString.every (fun c => negb (CodeUnit.is_colon c)) (JsString.removeColons s) = true.
Proof.
  induction s as [|c t IH]; simpl; [reflexivity|].
  destruct (CodeUnit.is_colon c) eqn:E; simpl; [exact IH | now rewrite E, IH].
Qed.

Lemma removeColons_fixed (s : string) :
  JsString.every (fun c => negb (CodeUnit.is_colon c)) s = true ->
  JsString.removeColons s = s.
Proof.
  induction s as [|c t IH]; simpl; [reflexivity|].
  intros H. apply andb_true_iff in H as [Hc Ht].
  apply negb_true_iff in Hc. rewrite Hc, IH; auto.
Qed.

Lemma replaceWordColonWord_fixed (s : string) :
  JsString.every (fun c => negb (CodeUnit.is_colon c)) s = true ->
  JsString.replaceWordColonWord s = s.
Proof.
  induction s as [|a t IH]; [reflexivity|].
  intros H. simpl in H. apply andb_true_iff in H as [Ha Ht].
  specialize (IH Ht).
  destruct t as [|c [|b rest]]; [reflexivity | reflexivity |].
  change (JsString.replaceWordColonWord (String a (String c (String b rest))))
    with (if CodeUnit.is_word a && CodeUnit.is_colon c && CodeUnit.is_word b
          then String a (String CodeUnit.space
                   (String b (JsString.replaceWordColonWord rest)))
          else String a (JsString.replaceWordColonWord (String c (String b rest)))).
  simpl in Ht. apply andb_true_iff in Ht as [Hc _].
  apply negb_true_iff in Hc. rewrite Hc, andb_false_r. cbv iota.
  now rewrite IH.
Qed.

Lemma every_get (p : ascii -> bool) (s : string) :
  JsString.every p s = true -> forall n c, String.get n s = Some c -> p c = true.
Proof.
  induction s as [|a t IH]; simpl; intros H n c Hn; [discriminate|].
  apply andb_true_iff in H as [Ha Ht].
  destruct n; [now inversion Hn; subst | eauto].
Qed.

Lemma sanitizeTitle_no_colon (s : string) :
  JsString.every (fun c => negb (CodeUnit.is_colon c)) (sanitizeTitle s) = true.
Proof. apply removeColons_no_colon. Qed.

Lemma sanitizeTitle_lower (s : string) :
  JsString.every (fun c => negb (CodeUnit.is_upper c)) (sanitizeTitle s) = true.
Proof.
  unfold sanitizeTitle.
  apply every_removeColons, every_replaceWordColonWord; [reflexivity|].
  apply every_toLowerCase.
Qed.

(** Normalizing a normalized string changes nothing. *)
Lemma sanitizeTitle_idempotent (s : string) :
  sanitizeTitle (sanitizeTitle s) = sanitizeTitle s.
Proof.
  unfold sanitizeTitle at 1.
  rewrite (toLowerCase_fixed _ (sanitizeTitle_lower s)).
  rewrite (replaceWordColonWord_fixed _ (sanitizeTitle_no_colon s)).
  apply removeColons_fixed, sanitizeTitle_no_colon.
Qed.

Lemma replaceWordColonWord_ColonSpaced (s : string) :
  ColonSpaced s (JsString.replaceWordColonWord s).
Proof.
  assert (G : forall n s, String.length s <= n ->
               ColonSpaced s (JsString.replaceWordColonWord s)).
  { induction n as [|n IH]; intros u Hlen.
    - destruct u; simpl in *; [constructor | lia].
    - destruct u as [|a [|c [|b rest]]].
      + constructor.
      + simpl. apply CS_copy; [discriminate | constructor].
      + simpl. apply CS_copy; [discriminate |].
        apply CS_copy; [discriminate | constructor].
      + change (JsString.replaceWordColonWord (String a (String c (String b rest))))
          with (if CodeUnit.is_word a && CodeUnit.is_colon c && CodeUnit.is_word b
                then String a (String CodeUnit.space
                         (String b (JsString.replaceWordColonWord rest)))
                else String a (JsString.replaceWordColonWord (String c (String b rest)))).
        destruct (CodeUnit.is_word a && CodeUnit.is_colon c && CodeUnit.is_word b) eqn:E.
        * apply andb_true_iff in E as [E Hb]. apply andb_true_iff in E as [Ha Hc].
          apply is_colon_true in Hc. subst c.
          apply CS_match; auto. apply IH. simpl in Hlen. lia.
        * apply CS_copy; [| apply IH; simpl in *; lia].
          intros b' rest' Heq. inversion Heq; subst.
          change (CodeUnit.is_colon CodeUnit.colon) with true in E.
          now rewrite andb_true_r in E. }
  exact (G (String.length s) s (le_n _)).
Qed.

Lemma ColonSpaced_functional (s out1 : string) :
  ColonSpaced s out1 -> forall out2, ColonSpaced s out2 -> out1 = out2.
Proof.
  induction 1 as [|a b rest out Ha Hb H IH|a t out Hno H IH]; intros out2 H2.
  - now inversion H2.
  - inversion H2 as [|a' b' rest' out' Ha' Hb' H'|a' t' out' Hno' H']; subst.
    + f_equal. f_equal. f_equal. now apply IH.
    + specialize (Hno' b rest eq_refl). rewrite Ha, Hb in Hno'. discriminate.
  - inversion H2 as [|a' b' rest' out' Ha' Hb' H'|a' t' out' Hno' H']; subst.
    + specialize (Hno b' rest' eq_refl). rewrite Ha', Hb' in Hno. discriminate.
    + f_equal. now apply IH.
Qed.

Lemma removeColons_ColonsDropped (s : string) :
  ColonsDropped s (JsString.removeColons s).
Proof.
  induction s as [|c t IH]; simpl; [constructor|].
  destruct (CodeUnit.is_colon c) eqn:E.
  - apply is_colon_true in E. subst. now constructor.
  - apply is_colon_false in E. now constructor.
Qed.

Lemma ColonsDropped_functional (s out1 : string) :
  ColonsDropped s out1 -> forall out2, ColonsDropped s out2 -> out1 = out2.
Proof.
  induction 1 as [|t out H IH|a t out Ha H IH]; intros out2 H2.
  - now inversion H2.
  - inversion H2; subst; [now apply IH | congruence].
  - inversion H2; subst; [congruence | f_equal; now apply IH].
Qed.

Lemma LowerCased_functional (s out1 : string) :
  LowerCased s out1 -> forall out2, LowerCased s out2 -> out1 = out2.
Proof.
  induction 1 as [|a t out H IH]; intros out2 H2; inversion H2; subst;
    [reflexivity | f_equal; now apply IH].
Qed.

(** Matches do not overlap: the unit that closes one match cannot open the
    next, so the second colon of [a:b:c] is dropped, not turned into a
    space. *)
Example sanitizeTitle_chain : sanitizeTitle "A:b:C" = "a bc".
Proof. reflexivity. Qed.

Example sanitizeTitle_forest_day : sanitizeTitle "Forest: Day" = "forest day".
Proof. reflexivity. Qed.

(** C7.  [sanitizeTitle] is total: for every string, the empty one
    included, it yields the one string obtained by lower-casing the input
    unit by unit, then replacing the matches of word-colon-word (leftmost
    first, not overlapping) by the two word units with one space between
    them, then dropping every colon that is left.  The result holds no
    colon. *)
Theorem sanitizeTitle_spec (title : string) :
  (exists lowered spaced,
      LowerCased title lowered /\
      ColonSpaced lowered spaced /\
      ColonsDropped spaced (sanitizeTitle title)) /\
  (forall lowered spaced out,
      LowerCased title lowered -> ColonSpaced lowered spaced ->
      ColonsDropped spaced out -> out = sanitizeTitle title) /\
  JsString.NoColon (sanitizeTitle title) /\
  sanitizeTitle EmptyString = EmptyString.
Proof.
  split; [|split; [|split]].
  - exists (JsString.toLowerCase title),
           (JsString.replaceWordColonWord (JsString.toLowerCase title)).
    split; [apply toLowerCase_LowerCased|].
    split; [apply replaceWordColonWord_ColonSpaced | apply removeColons_ColonsDropped].
  - intros lowered spaced out Hl Hs Hd.
    rewrite (LowerCased_functional _ _ Hl _ (toLowerCase_LowerCased title)) in Hs.
    rewrite (ColonSpaced_functional _ _ Hs _ (replaceWordColonWord_ColonSpaced _)) in Hd.
    exact (ColonsDropped_functional _ _ Hd _ (removeColons_ColonsDropped _)).
  - intros n Hn.
    pose proof (every_get _ _ (sanitizeTitle_no_colon title) n _ Hn) as H.
    discriminate.
  - reflexivity.
Qed.

(** ** Substrings and membership *)

Lemma prefix_iff (s t : string) :
  String.prefix s t = true <-> exists post, t = s ++ post.
Proof.
  revert t. induction s as [|a s IH]; intros t; simpl.
  - destruct t; simpl; split; eauto.
  - destruct t as [|b t]; simpl.
    + split; [discriminate | intros [post H]; discriminate].
    + destruct (ascii_dec a b) as [->|Hab].
      * rewrite IH. split; intros [post H]; exists post; [now subst | now inversion H].
      * split; [discriminate | intros [post H]; inversion H; congruence].
Qed.

Lemma index_found_iff (s t : string) :
  String.index 0 s t <> None <-> JsString.Substring s t.
Proof.
  unfold JsString.Substring.
  induction t as [|b t IH].
  - simpl. destruct s as [|a s].
    + split; [intros _; exists EmptyString, EmptyString; reflexivity | discriminate].
    + split; [congruence|]. intros [pre [post H]].
      destruct pre; simpl in H; discriminate.
  - change (String.index 0 s (String b t))
      with (if String.prefix s (String b t) then Some 0
            else match String.index 0 s t with
                 | Some n => Some (S n)
                 | None => None
                 end).
    destruct (String.prefix s (String b t)) eqn:P.
    + split; [intros _ | discriminate].
      apply prefix_iff in P as [post H]. exists EmptyString, post. exact H.
    + split.
      * intros H. destruct (String.index 0 s t); [|congruence].
        destruct (proj1 IH) as [pre [post E]]; [discriminate|].
        exists (String b pre), post. simpl. now rewrite E.
      * intros [pre [post E]]. destruct pre as [|c pre]; simpl in E.
        -- assert (String.prefix s (String b t) = true) as P'
             by (apply prefix_iff; eauto).
           congruence.
        -- inversion E; subst.
           destruct (String.index 0 s (pre ++ s ++ post)) eqn:I; [discriminate|].
           exfalso. apply (proj2 IH); eauto.
Qed.

Lemma Substring_refl (s : string) : JsString.Substring s s.
Proof.
  exists EmptyString, EmptyString. simpl.
  induction s as [|c s IH]; [reflexivity | simpl; now rewrite <- IH].
Qed.

Lemma indexOf_found (t s : string) :
  (-1 <? JsString.indexOf t s)%Z = true <-> JsString.Substring s t.
Proof.
  rewrite <- index_found_iff. unfold JsString.indexOf.
  destruct (String.index 0 s t).
  - split; [discriminate | intros _; apply Z.ltb_lt; lia].
  - split; [discriminate | congruence].
Qed.

Lemma indexOf_empty (t : string) : (-1 <? JsString.indexOf t EmptyString)%Z = true.
Proof. apply indexOf_found. exists EmptyString, t. reflexivity. Qed.

Lemma includes_In (l : list string) (x : string) :
  JsString.includes l x = true <-> In x l.
Proof.
  unfold JsString.includes. rewrite existsb_exists. split.
  - intros [y [Hy E]]. apply String.eqb_eq in E. now subst.
  - intros H. exists x. split; [exact H | apply String.eqb_refl].
Qed.

Lemma titleTest_TitleHit (searchString : string) (track : TabletopAudioTrack) :
  titleTest (sanitizeTitle searchString) track = true <-> TitleHit searchString track.
Proof. apply indexOf_found. Qed.

Lemma categoryTest_CategoryHit (searchString : string) (track : TabletopAudioTrack) :
  categoryHitb searchString track = true <-> CategoryHit searchString track.
Proof.
  unfold categoryHitb, categoryTest, CategoryHit.
  now rewrite orb_true_iff, !includes_In.
Qed.

Lemma not_TitleHit (searchString : string) (track : TabletopAudioTrack) :
  titleTest (sanitizeTitle searchString) track = false <-> ~ TitleHit searchString track.
Proof.
  rewrite <- titleTest_TitleHit.
  destruct (titleTest (sanitizeTitle searchString) track); split; congruence.
Qed.

(** ** The scan of the catalog *)

Lemma scanTracks_cons (search : string) (track : TabletopAudioTrack)
      (later acc : list TabletopAudioTrack) :
  scanTracks search (track :: later) acc =
  if titleTest search track then inl track
  else if categoryTest search track then scanTracks search later (acc ++ [track])%list
       else scanTracks search later acc.
Proof. reflexivity. Qed.

Lemma scanTracks_first_hit (search : string) (pre : list TabletopAudioTrack) :
  forall (t : TabletopAudioTrack) (post acc : list TabletopAudioTrack),
    (forall x, In x pre -> titleTest search x = false) ->
    titleTest search t = true ->
    scanTracks search (pre ++ t :: post)%list acc = inl t.
Proof.
  induction pre as [|x pre IH]; intros t post acc Hpre Ht.
  - simpl app. rewrite scanTracks_cons, Ht. reflexivity.
  - simpl app. rewrite scanTracks_cons, (Hpre x (or_introl eq_refl)).
    destruct (categoryTest search x); apply IH; auto using in_cons.
Qed.

Lemma scanTracks_no_hit (search : string) (remaining : list TabletopAudioTrack) :
  forall acc,
    (forall x, In x remaining -> titleTest search x = false) ->
    scanTracks search remaining acc = inr (acc ++ filter (categoryTest search) remaining)%list.
Proof.
  induction remaining as [|x later IH]; intros acc H.
  - simpl. now rewrite app_nil_r.
  - rewrite scanTracks_cons, (H x (or_introl eq_refl)). simpl filter.
    destruct (categoryTest search x).
    + rewrite IH by auto using in_cons. now rewrite <- app_assoc.
    + apply IH. auto using in_cons.
Qed.

Lemma scanTracks_inl (search : string) (remaining : list TabletopAudioTrack) :
  forall acc t,
    scanTracks search remaining acc = inl t ->
    exists pre post,
      remaining = (pre ++ t :: post)%list /\
      (forall x, In x pre -> titleTest search x = false) /\
      titleTest search t = true.
Proof.
  induction remaining as [|x later IH]; intros acc t H.
  - discriminate.
  - rewrite scanTracks_cons in H.
    destruct (titleTest search x) eqn:Hx.
    + inversion H; subst. exists [], later. repeat split; auto.
      intros y [].
    + assert (exists acc', scanTracks search later acc' = inl t) as [acc' H']
        by (destruct (categoryTest search x); eauto).
      destruct (IH _ _ H') as [pre [post [E [Hpre Ht]]]].
      exists (x :: pre), post. repeat split; auto.
      * simpl. now rewrite E.
      * intros y [<-|Hy]; auto.
Qed.

Lemma scanTracks_inr (search : string) (remaining : list TabletopAudioTrack) :
  forall acc found,
    scanTracks search remaining acc = inr found ->
    forall x, In x remaining -> titleTest search x = false.
Proof.
  induction remaining as [|y later IH]; intros acc found H x Hx.
  - destruct Hx.
  - rewrite scanTracks_cons in H.
    destruct (titleTest search y) eqn:Hy; [discriminate|].
    destruct Hx as [<-|Hx]; [exact Hy|].
    destruct (categoryTest search y); eapply IH; eauto.
Qed.

(** The results of [matchTracks], case by case. *)
Lemma matchTracks_exact (catalog : list TabletopAudioTrack) (searchString : string)
      (t : TabletopAudioTrack) :
  matchTracks catalog searchString = ExactTitle t <->
  exists pre post,
    catalog = (pre ++ t :: post)%list /\
    (forall x, In x pre -> ~ TitleHit searchString x) /\
    TitleHit searchString t.
Proof.
  unfold matchTracks. split.
  - destruct (scanTracks (sanitizeTitle searchString) catalog []) as [t'|found] eqn:E.
    + intros H. inversion H; subst.
      destruct (scanTracks_inl _ _ _ _ E) as [pre [post [Hc [Hpre Ht]]]].
      exists pre, post. split; [exact Hc|]. split.
      * intros x Hx. apply not_TitleHit. auto.
      * now apply titleTest_TitleHit.
    + destruct (negb (length found =? 0)%nat); discriminate.
  - intros [pre [post [Hc [Hpre Ht]]]]. subst catalog.
    rewrite scanTracks_first_hit; auto.
    + intros x Hx. apply not_TitleHit. auto.
    + now apply titleTest_TitleHit.
Qed.

Lemma matchTracks_no_exact (catalog : list TabletopAudioTrack) (searchString : string) :
  (forall x, In x catalog -> ~ TitleHit searchString x) ->
  matchTracks catalog searchString =
  match filter (categoryHitb searchString) catalog with
  | [] => NoMatch
  | found => CategorySet found
  end.
Proof.
  intros H. unfold matchTracks.
  rewrite scanTracks_no_hit by (intros x Hx; apply not_TitleHit; auto).
  simpl app. unfold categoryHitb.
  now destruct (filter (categoryTest (sanitizeTitle searchString)) catalog).
Qed.

(** ** Running the handlers *)

Arguments getSuggestions : simpl never.
Arguments randomIndex : simpl never.
Arguments String.append : simpl never.

Lemma bind_run {A B : Type} (m : Handler A) (k : A -> Handler B) (conv : Conv) :
  bind m k conv =
  match m conv with
  | (Returned a, conv') => k a conv'
  | (Thrown e, conv') => (Thrown e, conv')
  end.
Proof. reflexivity. Qed.

Lemma drawIndex_lt (env : Env) (k n : nat) : 0 < n -> drawIndex env k n < n.
Proof.
  intros Hn. unfold drawIndex.
  assert (H : (random env k mod 2 ^ 53 * N.of_nat n / 2 ^ 53 < N.of_nat n)%N).
  { apply N.Div0.div_lt_upper_bound.
    apply N.mul_lt_mono_pos_r; [lia|].
    apply N.mod_lt. discriminate. }
  lia.
Qed.

Lemma randomIndex_run (env : Env) (n : nat) (conv : Conv) :
  randomIndex env n conv = (Returned (drawIndex env (randomCalls conv) n), tick_random conv).
Proof. reflexivity. Qed.

Lemma add_random_0 (conv : Conv) : add_random 0 conv = conv.
Proof. now destruct conv. Qed.

Lemma add_random_tick (n : nat) (conv : Conv) :
  add_random n (tick_random conv) = add_random (S n) conv.
Proof. unfold add_random, tick_random. simpl. now rewrite Nat.add_succ_r. Qed.

Lemma generator_slotField (i : nat) :
  exists g, nth_error suggestionGenerators (i mod 3) = Some g /\
            forall t, g t = slotField i t.
Proof.
  unfold slotField.
  pose proof (Nat.mod_upper_bound i 3 ltac:(discriminate)) as H.
  destruct (i mod 3) as [|[|[|m]]]; simpl; eauto. lia.
Qed.

Lemma getSuggestionsLoop_run (env : Env) (catalog : list TabletopAudioTrack) :
  catalog <> [] ->
  forall indices acc conv,
    getSuggestionsLoop env catalog indices acc conv =
    (Returned (acc ++ slots env catalog (randomCalls conv) indices)%list,
     add_random (length indices) conv).
Proof.
  intros Hne. induction indices as [|i later IH]; intros acc conv.
  - simpl. now rewrite app_nil_r, add_random_0.
  - cbn [getSuggestionsLoop]. rewrite bind_run, randomIndex_run.
    destruct (generator_slotField i) as [g [Hg Hs]]. rewrite Hg.
    assert (Hlt : drawIndex env (randomCalls conv) (length catalog) < length catalog).
    { apply drawIndex_lt. destruct catalog; [congruence | simpl; lia]. }
    destruct (nth_error catalog (drawIndex env (randomCalls conv) (length catalog)))
      as [t|] eqn:E; [|apply nth_error_None in E; lia].
    rewrite IH. cbn [slots length]. rewrite E, Hs, add_random_tick, <- app_assoc.
    reflexivity.
Qed.

Lemma getSuggestions_run (env : Env) (catalog : list TabletopAudioTrack) (conv : Conv) :
  catalog <> [] ->
  getSuggestions env catalog conv =
  (Returned (slots env catalog (randomCalls conv) (seq 0 6)), add_random 6 conv).
Proof. intros H. unfold getSuggestions. now rewrite getSuggestionsLoop_run. Qed.

Lemma getSuggestions_empty (env : Env) (conv : Conv) :
  getSuggestions env [] conv = (Thrown TypeError, tick_random conv).
Proof.
  unfold getSuggestions. cbn [seq getSuggestionsLoop]. rewrite bind_run, randomIndex_run.
  cbn. now destruct (drawIndex env (randomCalls conv) 0).
Qed.

Lemma slots_length (env : Env) (catalog : list TabletopAudioTrack) (indices : list nat) :
  forall k, length (slots env catalog k indices) = length indices.
Proof. induction indices; intros k; simpl; auto. Qed.

(** The loop of the play handler follows [scanTracks]. *)
Lemma playLoop_scan (env : Env) (search : string) (remaining : list TabletopAudioTrack) :
  forall acc conv,
    playLoop env search remaining acc conv =
    match scanTracks search remaining acc with
    | inl track => (exactReply env track ;; ret FunctionReturned) conv
    | inr found => (Returned (LoopDone found), conv)
    end.
Proof.
  induction remaining as [|x later IH]; intros acc conv; [reflexivity|].
  rewrite scanTracks_cons. cbn [playLoop]. fold (titleTest search x).
  fold (categoryTest search x).
  destruct (titleTest search x).
  - unfold exactReply. rewrite !bind_run. cbn.
    destruct (json conv) as [j|]; [|reflexivity]. cbn.
    match goal with
    | |- context [getSuggestions env (tracks j) ?c] =>
        destruct (getSuggestions env (tracks j) c) as [[chips|e] c']; reflexivity
    end.
  - destruct (categoryTest search x); apply IH.
Qed.

(** The play handler answers as [matchTracks] classifies. *)
Lemma searchAndPlay_matchTracks (env : Env) (searchString : string) (conv : Conv) :
  searchAndPlay env searchString conv =
  match json conv with
  | None => (Thrown TypeError, conv)
  | Some j =>
      match matchTracks (tracks j) searchString with
      | ExactTitle track => exactReply env track conv
      | CategorySet found => categoryReply env (sanitizeTitle searchString) found conv
      | NoMatch => noMatchReply env conv
      end
  end.
Proof.
  unfold searchAndPlay, matchTracks. rewrite bind_run.
  unfold dataTracks at 1. rewrite bind_run. cbn [getConv].
  destruct (json conv) as [j|]; [|reflexivity].
  cbn [ret Monad_Handler]. rewrite bind_run, playLoop_scan.
  destruct (scanTracks (sanitizeTitle searchString) (tracks j) []) as [t|found].
  - rewrite bind_run. destruct (exactReply env t conv) as [[[]|e] c']; reflexivity.
  - destruct (negb (length found =? 0)%nat); reflexivity.
Qed.

(** ** What the handlers leave untouched *)

Create HintDb frames.

Section Frame.

Variable R : Conv -> Conv -> Prop.
Hypothesis R_refl : forall c, R c c.
Hypothesis R_trans : forall a b c, R a b -> R b c -> R a c.

Lemma frames_ret {A : Type} (a : A) : Frames R (ret a).
Proof. intros conv. apply R_refl. Qed.

Lemma frames_throw {A : Type} (e : Error) : Frames R (@throw A e).
Proof. intros conv. apply R_refl. Qed.

Lemma frames_getConv : Frames R getConv.
Proof. intros conv. apply R_refl. Qed.

Lemma frames_modify (f : Conv -> Conv) :
  (forall c, R c (f c)) -> Frames R (modify f).
Proof. intros H conv. apply H. Qed.

Lemma frames_bind {A B : Type} (m : Handler A) (k : A -> Handler B) :
  Frames R m -> (forall a, Frames R (k a)) -> Frames R (bind m k).
Proof.
  intros Hm Hk conv. rewrite bind_run.
  specialize (Hm conv). destruct (m conv) as [[a|e] c']; simpl in *.
  - eapply R_trans; [exact Hm | apply Hk].
  - exact Hm.
Qed.

Ltac frames_step :=
  match goal with
  | |- Frames _ (bind _ _) => apply frames_bind; [|intro]
  | |- Frames _ (ret _) => apply frames_ret
  | |- Frames _ (throw _) => apply frames_throw
  | |- Frames _ getConv => apply frames_getConv
  | |- Frames _ (let _ := _ in _) => cbv zeta
  | |- Frames _ (match ?x with _ => _ end) => destruct x
  | |- Frames _ _ => solve [auto]
  end.

Ltac frames := repeat frames_step.

Lemma frames_dataTracks : Frames R dataTracks.
Proof. unfold dataTracks. frames. Qed.

Lemma frames_firstTrack (l : list TabletopAudioTrack) : Frames R (firstTrack l).
Proof. unfold firstTrack. frames. Qed.

Lemma frames_firstSuggestion (s : Suggestions) : Frames R (firstSuggestion s).
Proof. unfold firstSuggestion. frames. Qed.

Hypothesis R_random : forall c, R c (tick_random c).

Lemma frames_randomIndex (env : Env) (n : nat) : Frames R (randomIndex env n).
Proof. intros conv. rewrite randomIndex_run. apply R_random. Qed.

Lemma frames_getSuggestions (env : Env) (catalog : list TabletopAudioTrack) :
  Frames R (getSuggestions env catalog).
Proof.
  unfold getSuggestions. generalize (@nil (option string)) as acc.
  induction (seq 0 6) as [|i later IH]; intros acc; cbn [getSuggestionsLoop].
  - apply frames_ret.
  - apply frames_bind; [apply frames_randomIndex | intros idx].
    cbv zeta.
    destruct (nth_error suggestionGenerators (i mod 3)); [|apply frames_throw].
    destruct (nth_error catalog idx); [apply IH | apply frames_throw].
Qed.

Hypothesis R_say : forall f c, is_media f = false -> R c (push_asked f c).

Lemma frames_say (f : Fragment) : is_media f = false -> Frames R (ask f).
Proof. intros H conv. now apply R_say. Qed.

#[local] Hint Resolve frames_dataTracks frames_firstTrack frames_firstSuggestion
     frames_getSuggestions frames_randomIndex : frames.

Ltac frames_more :=
  repeat first
    [ frames_step
    | apply frames_say; reflexivity
    | solve [auto with frames] ].

(** The closing steps of most handlers: the suggestion chips. *)
Lemma frames_suggest (env : Env) :
  Frames R (catalog <- dataTracks ;;
            chips <- getSuggestions env catalog ;;
            ask (Chips chips)).
Proof. frames_more. Qed.

Lemma frames_noMatchReply (env : Env) : Frames R (noMatchReply env).
Proof. unfold noMatchReply. frames_more. Qed.

Lemma frames_Search (env : Env) (searchParam : string) :
  Frames R (Search env searchParam).
Proof. unfold Search. frames_more. Qed.

Lemma frames_New : Frames R New.
Proof. unfold New. frames_more. Qed.

Lemma frames_Help : Frames R Help.
Proof. unfold Help. frames_more. Qed.

Lemma frames_Current (env : Env) : Frames R (Current env).
Proof. unfold Current. frames_more. Qed.

Lemma frames_MediaStatus (env : Env) (mediaStatus : option string) :
  Frames R (MediaStatus env mediaStatus).
Proof. unfold MediaStatus. frames_more. Qed.

Lemma frames_WelcomePlain (env : Env) : Frames R (WelcomePlain env).
Proof. unfold WelcomePlain. frames_more. Qed.

Hypothesis R_media : forall m c, R c (push_asked (Media m) c).

Lemma frames_ask (f : Fragment) : Frames R (ask f).
Proof.
  intros conv. destruct f; try (apply R_say; reflexivity). apply R_media.
Qed.

Lemma frames_Repeat (env : Env) : Frames R (Repeat env).
Proof. unfold Repeat. repeat first [frames_step | apply frames_ask | solve [auto with frames]]. Qed.

Hypothesis R_current : forall t c, R c (set_currentTrack t c).
Hypothesis R_entity : forall e c, R c (push_entity e c).
Hypothesis R_sent : forall c, R c (mark_sent c).

Ltac frames_all :=
  repeat first
    [ frames_step
    | apply frames_ask
    | apply frames_modify; solve [auto]
    | solve [auto with frames] ].

Lemma frames_exactReply (env : Env) (t : TabletopAudioTrack) :
  Frames R (exactReply env t).
Proof. unfold exactReply. frames_all. Qed.

Lemma frames_categoryReply (env : Env) (search : string) (found : list TabletopAudioTrack) :
  Frames R (categoryReply env search found).
Proof. unfold categoryReply. frames_all. Qed.

Lemma frames_searchAndPlay (env : Env) (searchString : string) :
  Frames R (searchAndPlay env searchString).
Proof.
  intros conv. rewrite searchAndPlay_matchTracks.
  destruct (json conv); [|apply R_refl].
  destruct (matchTracks (tracks t) searchString).
  - apply frames_exactReply.
  - apply frames_categoryReply.
  - apply frames_noMatchReply.
Qed.

Lemma frames_PlayEntity (env : Env) (title genre tag : option string) :
  Frames R (PlayEntity env title genre tag).
Proof.
  unfold PlayEntity. cbv zeta.
  destruct (orElse (orElse title genre) tag); [|apply frames_ask].
  destruct (truthy _); [apply frames_searchAndPlay | apply frames_ask].
Qed.

Lemma frames_WelcomeEntities (env : Env) (lastSeen : bool) :
  Frames R (WelcomeEntities env lastSeen).
Proof. unfold WelcomeEntities. frames_all. Qed.

Lemma frames_setSessionEntities : Frames R setSessionEntities.
Proof. unfold setSessionEntities. frames_all. Qed.

(** Every handler of either app keeps a relation that the writes other
    than the one to [conv.data.json] keep. *)
Lemma frames_handle (env : Env) (v : Variant) (i : Intent) :
  Frames R (handle env v i).
Proof.
  destruct i, v; cbn [handle];
    auto using frames_WelcomePlain, frames_WelcomeEntities, frames_searchAndPlay,
      frames_PlayEntity, frames_Repeat, frames_Current, frames_New, frames_Help,
      frames_Search, frames_MediaStatus, frames_throw.
Qed.

End Frame.

(** ** The three answers of the play handler, run *)

Lemma SameCurrent_refl (c : Conv) : SameCurrent c c.
Proof. reflexivity. Qed.

Lemma SameCurrent_trans (a b c : Conv) :
  SameCurrent a b -> SameCurrent b c -> SameCurrent a c.
Proof. unfold SameCurrent. congruence. Qed.

Lemma SameMedia_refl (c : Conv) : SameMedia c c.
Proof. reflexivity. Qed.

Lemma SameMedia_trans (a b c : Conv) :
  SameMedia a b -> SameMedia b c -> SameMedia a c.
Proof. unfold SameMedia. congruence. Qed.

Lemma SameMedia_say (f : Fragment) (c : Conv) :
  is_media f = false -> SameMedia c (push_asked f c).
Proof.
  intros H. unfold SameMedia, mediaAsked. simpl.
  rewrite filter_app. simpl. rewrite H. apply app_nil_r.
Qed.

Lemma SameCatalog_refl (c : Conv) : SameCatalog c c.
Proof. repeat split. Qed.

Lemma SameCatalog_trans (a b c : Conv) :
  SameCatalog a b -> SameCatalog b c -> SameCatalog a c.
Proof. unfold SameCatalog. intuition congruence. Qed.

Lemma mediaAsked_add_asked (fs : list Fragment) (c : Conv) :
  mediaAsked (add_asked fs c) = (mediaAsked c ++ filter is_media fs)%list.
Proof. unfold mediaAsked. simpl. apply filter_app. Qed.

Lemma ask_run (f : Fragment) (conv : Conv) :
  ask f conv = (Returned tt, push_asked f conv).
Proof. reflexivity. Qed.

Lemma modify_run (f : Conv -> Conv) (conv : Conv) :
  modify f conv = (Returned tt, f conv).
Proof. reflexivity. Qed.

Lemma getConv_run (conv : Conv) : getConv conv = (Returned conv, conv).
Proof. reflexivity. Qed.

Lemma ret_run {A : Type} (a : A) (conv : Conv) :
  (ret a : Handler A) conv = (Returned a, conv).
Proof. reflexivity. Qed.

Lemma dataTracks_run (conv : Conv) (j : TabletopAudioResponse) :
  json conv = Some j -> dataTracks conv = (Returned (tracks j), conv).
Proof. intros H. unfold dataTracks. rewrite bind_run, getConv_run, H. reflexivity. Qed.

Lemma dataTracks_unset (conv : Conv) :
  json conv = None -> dataTracks conv = (Thrown TypeError, conv).
Proof. intros H. unfold dataTracks. rewrite bind_run, getConv_run, H. reflexivity. Qed.

(** Runs a handler whose every step is known to return. *)
Ltac run_step Hj Hne :=
  first
    [ rewrite bind_run
    | rewrite ask_run
    | rewrite modify_run
    | rewrite getConv_run
    | rewrite ret_run
    | rewrite randomIndex_run
    | match type of Hj with
      | _ = Some ?j => rewrite (dataTracks_run _ j) by (simpl; exact Hj)
      end
    | rewrite getSuggestions_run by exact Hne ];
  cbv beta iota.

Ltac conv_eq :=
  apply f_equal;
  unfold set_currentTrack, add_asked, add_random, push_asked, tick_random;
  cbn [json currentTrack asked sessionEntities sessionEntitiesSent
       randomCalls fetchCalls fetchStored];
  f_equal; cbn [app Nat.add]; rewrite <- ?app_assoc; reflexivity.

Lemma exactReply_run (env : Env) (t : TabletopAudioTrack) (conv : Conv)
      (j : TabletopAudioResponse) :
  json conv = Some j -> tracks j <> [] ->
  exactReply env t conv =
  (Returned tt,
   set_currentTrack t
     (add_asked [Text ("Here is " ++ track_title t ++ ".");
                 Media (generateMediaResponse t);
                 Chips (slots env (tracks j) (randomCalls conv) (seq 0 6))]
                (add_random 6 conv))).
Proof.
  intros Hj Hne. unfold exactReply. repeat run_step Hj Hne. conv_eq.
Qed.

Lemma categoryReply_run (env : Env) (search : string) (found : list TabletopAudioTrack)
      (conv : Conv) (j : TabletopAudioResponse) :
  json conv = Some j -> tracks j <> [] -> found <> [] ->
  exists t,
    nth_error found (drawIndex env (randomCalls conv) (length found)) = Some t /\
    categoryReply env search found conv =
    (Returned tt,
     set_currentTrack t
       (add_asked [Text ("I found several tracks for the category " ++ search ++
                         ". Here is one at random: " ++ track_title t ++ ".");
                   Media (generateMediaResponse t);
                   Chips (slots env (tracks j) (S (randomCalls conv)) (seq 0 6))]
                  (add_random 7 conv))).
Proof.
  intros Hj Hne Hfound.
  assert (Hlt : drawIndex env (randomCalls conv) (length found) < length found).
  { apply drawIndex_lt. destruct found; [congruence | simpl; lia]. }
  destruct (nth_error found (drawIndex env (randomCalls conv) (length found)))
    as [t|] eqn:E; [|apply nth_error_None in E; lia].
  exists t. split; [reflexivity|].
  unfold categoryReply. rewrite bind_run, randomIndex_run. cbv beta iota.
  rewrite E. repeat run_step Hj Hne. conv_eq.
Qed.

Lemma noMatchReply_run (env : Env) (conv : Conv) (j : TabletopAudioResponse) :
  json conv = Some j -> tracks j <> [] ->
  exists first,
    nth_error (slots env (tracks j) (randomCalls conv) (seq 0 6)) 0 = Some first /\
    noMatchReply env conv =
    (Returned tt,
     add_asked [Simple
                  "I can't find a track with that description. What else do you want to listen to?"
                  ("I can't find a track with that description, but I found others like " ++
                   interpolate first ++ ". " ++
                   "You can also ask " ++ dquote ++ "What are the latest tracks?" ++ dquote ++ ". " ++
                   "What would you like to listen to?");
                Chips (slots env (tracks j) (randomCalls conv) (seq 0 6))]
               (add_random 6 conv)).
Proof.
  intros Hj Hne. unfold noMatchReply.
  destruct (slots env (tracks j) (randomCalls conv) (seq 0 6)) as [|first rest] eqn:E;
    [discriminate|].
  exists first. split; [reflexivity|].
  repeat run_step Hj Hne. rewrite E. cbn [firstSuggestion].
  repeat run_step Hj Hne. conv_eq.
Qed.

Lemma matchTracks_category (catalog : list TabletopAudioTrack) (searchString : string)
      (found : list TabletopAudioTrack) :
  matchTracks catalog searchString = CategorySet found ->
  found = filter (categoryHitb searchString) catalog /\ found <> [] /\
  (forall x, In x catalog -> ~ TitleHit searchString x).
Proof.
  unfold matchTracks.
  destruct (scanTracks (sanitizeTitle searchString) catalog []) as [t|l] eqn:E;
    [discriminate|].
  pose proof (scanTracks_inr _ _ _ _ E) as Hno.
  rewrite scanTracks_no_hit in E by exact Hno. simpl in E. inversion E; subst l.
  destruct (filter _ catalog) as [|y l] eqn:F; simpl; [discriminate|].
  intros H. inversion H; subst found. repeat split; [discriminate|].
  intros x Hx. apply not_TitleHit. auto.
Qed.

Lemma matchTracks_nonempty (catalog : list TabletopAudioTrack) (searchString : string) :
  matchTracks catalog searchString <> NoMatch -> catalog <> [].
Proof. intros H ->. now apply H. Qed.

Lemma catalogOf_json (conv : Conv) :
  catalogOf conv <> [] -> exists j, json conv = Some j /\ tracks j = catalogOf conv.
Proof.
  unfold catalogOf. destruct (json conv) as [j|]; [eauto | congruence].
Qed.

Lemma first_hit_split (f : TabletopAudioTrack -> bool) (l : list TabletopAudioTrack) :
  (exists x, In x l /\ f x = true) ->
  exists pre t post,
    l = (pre ++ t :: post)%list /\ (forall x, In x pre -> f x = false) /\ f t = true.
Proof.
  induction l as [|y l IH]; intros [x [Hx Hf]]; [destruct Hx|].
  destruct (f y) eqn:Hy.
  - exists [], y, l. repeat split; auto. intros z [].
  - destruct IH as [pre [t [post [E [Hpre Ht]]]]].
    { destruct Hx as [<-|Hx]; [congruence | eauto]. }
    exists (y :: pre), t, post. repeat split; auto.
    + simpl. now rewrite E.
    + intros z [<-|Hz]; auto.
Qed.

(** ** The play handler: exact titles *)

Lemma matchTracks_exact_exists (catalog : list TabletopAudioTrack) (searchString : string) :
  (exists t, matchTracks catalog searchString = ExactTitle t) <->
  (exists t, In t catalog /\ TitleHit searchString t).
Proof.
  split.
  - intros [t H]. apply matchTracks_exact in H as [pre [post [E [_ Ht]]]].
    exists t. split; [|exact Ht]. subst. apply in_elt.
  - intros [t [Hin Ht]].
    destruct (first_hit_split (titleTest (sanitizeTitle searchString)) catalog)
      as [pre [t' [post [E [Hpre Ht']]]]].
    { exists t. split; [exact Hin | now apply titleTest_TitleHit]. }
    exists t'. apply matchTracks_exact. exists pre, post.
    split; [exact E|]. split.
    + intros x Hx. apply not_TitleHit. auto.
    + now apply titleTest_TitleHit.
Qed.

(** C1.  The play handler takes the exact-title exit precisely when the
    normalized search term occurs in the normalized title of some track of
    the catalog; the track it names is then the first such track in
    catalog order, whatever category matches the scan has collected
    before reaching it; and the handler answers with that track. *)
Theorem play_exact_title_first (catalog : list TabletopAudioTrack) (searchString : string) :
  ((exists t, matchTracks catalog searchString = ExactTitle t) <->
   (exists t, In t catalog /\ TitleHit searchString t)) /\
  (forall t,
      matchTracks catalog searchString = ExactTitle t <->
      exists pre post,
        catalog = (pre ++ t :: post)%list /\
        (forall x, In x pre -> ~ TitleHit searchString x) /\
        TitleHit searchString t) /\
  (forall pre t post collected,
      catalog = (pre ++ t :: post)%list ->
      (forall x, In x pre -> ~ TitleHit searchString x) ->
      TitleHit searchString t ->
      scanTracks (sanitizeTitle searchString) catalog collected = inl t) /\
  (forall env conv t,
      catalogOf conv = catalog ->
      matchTracks catalog searchString = ExactTitle t ->
      searchAndPlay env searchString conv = exactReply env t conv).
Proof.
  split; [|split; [|split]].
  - apply matchTracks_exact_exists.
  - intros t. apply matchTracks_exact.
  - intros pre t post collected E Hpre Ht. subst catalog.
    apply scanTracks_first_hit.
    + intros x Hx. apply not_TitleHit. auto.
    + now apply titleTest_TitleHit.
  - intros env conv t Hc Hm. rewrite searchAndPlay_matchTracks.
    unfold catalogOf in Hc. destruct (json conv) as [j|].
    + rewrite Hc, Hm. reflexivity.
    + subst catalog. discriminate.
Qed.

Lemma matchTracks_no_match (catalog : list TabletopAudioTrack) (searchString : string) :
  matchTracks catalog searchString = NoMatch <->
  (forall x, In x catalog -> ~ TitleHit searchString x /\ ~ CategoryHit searchString x).
Proof.
  split.
  - intros H.
    assert (Hno : forall x, In x catalog -> ~ TitleHit searchString x).
    { unfold matchTracks in H.
      destruct (scanTracks (sanitizeTitle searchString) catalog []) as [t|l] eqn:E;
        [discriminate|].
      intros x Hx. apply not_TitleHit. eapply scanTracks_inr; eauto. }
    rewrite matchTracks_no_exact in H by exact Hno.
    intros x Hx. split; [auto|].
    intros Hc. apply categoryTest_CategoryHit in Hc.
    assert (In x (filter (categoryHitb searchString) catalog))
      by (apply filter_In; auto).
    destruct (filter (categoryHitb searchString) catalog); [contradiction | discriminate].
  - intros H. rewrite matchTracks_no_exact by (intros x Hx; apply H; exact Hx).
    destruct (filter (categoryHitb searchString) catalog) as [|y l] eqn:F; [reflexivity|].
    assert (In y (filter (categoryHitb searchString) catalog)) as Hy
        by (rewrite F; now left).
    apply filter_In in Hy as [Hy Hc]. apply categoryTest_CategoryHit in Hc.
    now destruct (H y Hy).
Qed.

Lemma every_impl (p q : ascii -> bool) (s : string) :
  (forall c, p c = true -> q c = true) ->
  JsString.every p s = true -> JsString.every q s = true.
Proof.
  intros Hpq. induction s as [|c t IH]; simpl; [reflexivity|].
  intros H. apply andb_true_iff in H as [Hc Ht]. now rewrite Hpq, IH.
Qed.

(** A string of colons only has the empty normal form. *)
Lemma only_colons_normal_form (s : string) :
  JsString.every CodeUnit.is_colon s = true -> sanitizeTitle s = EmptyString.
Proof.
  intros H. unfold sanitizeTitle.
  rewrite toLowerCase_fixed.
  2:{ apply (every_impl CodeUnit.is_colon); [|exact H].
      intros c Hc. apply is_colon_true in Hc. now subst. }
  assert (R : JsString.replaceWordColonWord s = s).
  { clear -H. induction s as [|a t IH]; [reflexivity|].
    simpl in H. apply andb_true_iff in H as [Ha Ht]. specialize (IH Ht).
    apply is_colon_true in Ha. subst a.
    destruct t as [|c [|b rest]]; [reflexivity | reflexivity |].
    change (JsString.replaceWordColonWord (String CodeUnit.colon (String c (String b rest))))
      with (String CodeUnit.colon (JsString.replaceWordColonWord (String c (String b rest)))).
    now rewrite IH. }
  rewrite R. clear R.
  induction s as [|a t IH]; [reflexivity|].
  simpl in H. apply andb_true_iff in H as [Ha Ht]. simpl. rewrite Ha. auto.
Qed.

(** C10.  On a catalog that is not empty, a search term whose normal form
    is the empty string (the empty string, a string of colons) makes the
    play handler take the exact-title exit with the first track of the
    catalog: it reaches neither the category answer nor the no-match
    answer. *)
Theorem play_empty_normal_form
        (catalog : list TabletopAudioTrack) (searchString : string) :
  catalog <> [] ->
  sanitizeTitle searchString = EmptyString ->
  (exists first later,
      catalog = first :: later /\
      matchTracks catalog searchString = ExactTitle first /\
      forall env conv,
        catalogOf conv = catalog ->
        searchAndPlay env searchString conv = exactReply env first conv) /\
  (forall found, matchTracks catalog searchString <> CategorySet found) /\
  matchTracks catalog searchString <> NoMatch.
Proof.
  intros Hne Hs. destruct catalog as [|first later]; [congruence|].
  assert (Hm : matchTracks (first :: later) searchString = ExactTitle first).
  { unfold matchTracks. rewrite Hs, scanTracks_cons. unfold titleTest.
    now rewrite indexOf_empty. }
  split; [|split]; try (rewrite Hm; discriminate).
  exists first, later. split; [reflexivity|]. split; [exact Hm|].
  intros env conv Hc. rewrite searchAndPlay_matchTracks.
  unfold catalogOf in Hc. destruct (json conv) as [j|]; [|discriminate].
  now rewrite Hc, Hm.
Qed.

Lemma play_empty_normal_form_witness :
  sanitizeTitle ":::" = EmptyString /\
  matchTracks [arena; forestDay] ":::" = ExactTitle arena.
Proof.
  split; [reflexivity|].
  destruct (play_empty_normal_form [arena; forestDay] ":::")
    as [[first [later [E [H _]]]] _]; [discriminate | reflexivity |].
  inversion E; subst. exact H.
Defined.

(** ** The play handler: titles of the catalog *)

(** A title that occurs inside the title of an earlier track is not found
    by its own normal form: the earlier track is. *)
Lemma title_round_trip_counterexample :
  ~ (forall catalog t,
        In t catalog ->
        matchTracks catalog (sanitizeTitle (track_title t)) = ExactTitle t).
Proof.
  intros H.
  specialize (H [forestDayNight; forestDay] forestDay (or_intror (or_introl eq_refl))).
  vm_compute in H. discriminate H.
Qed.

(** C4, amended.  For a track [t] of the catalog, the play handler given
    the normal form of the title of [t] takes the exact-title exit with
    the first track of the catalog whose normalized title contains that
    normal form; this is [t] itself when no track before [t] has such a
    title. *)
Theorem title_round_trip_first (catalog : list TabletopAudioTrack) (t : TabletopAudioTrack) :
  In t catalog ->
  (exists pre t' post,
      catalog = (pre ++ t' :: post)%list /\
      (forall x, In x pre ->
                 ~ JsString.Substring (sanitizeTitle (track_title t))
                                      (sanitizeTitle (track_title x))) /\
      JsString.Substring (sanitizeTitle (track_title t))
                         (sanitizeTitle (track_title t')) /\
      matchTracks catalog (sanitizeTitle (track_title t)) = ExactTitle t') /\
  (forall pre post,
      catalog = (pre ++ t :: post)%list ->
      (forall x, In x pre ->
                 ~ JsString.Substring (sanitizeTitle (track_title t))
                                      (sanitizeTitle (track_title x))) ->
      matchTracks catalog (sanitizeTitle (track_title t)) = ExactTitle t).
Proof.
  intros Hin.
  assert (Hself : TitleHit (sanitizeTitle (track_title t)) t).
  { unfold TitleHit. rewrite sanitizeTitle_idempotent. apply Substring_refl. }
  split.
  - destruct (proj2 (matchTracks_exact_exists catalog (sanitizeTitle (track_title t))))
      as [t' Ht']; [eauto|].
    pose proof Ht' as Hm.
    apply matchTracks_exact in Ht' as [pre [post [E [Hpre Hhit]]]].
    unfold TitleHit in Hpre, Hhit. rewrite sanitizeTitle_idempotent in Hpre, Hhit.
    exists pre, t', post. auto.
  - intros pre post E Hpre. apply matchTracks_exact. exists pre, post.
    split; [exact E|]. split; [|exact Hself].
    intros x Hx. unfold TitleHit. rewrite sanitizeTitle_idempotent. auto.
Qed.

Lemma title_round_trip_first_witness :
  In forestDay [arena; forestDay] /\
  matchTracks [arena; forestDay] (sanitizeTitle (track_title forestDay)) =
  ExactTitle forestDay.
Proof.
  assert (Hin : In forestDay [arena; forestDay]) by (simpl; auto).
  split; [exact Hin|].
  apply (proj2 (title_round_trip_first [arena; forestDay] forestDay Hin) [arena] []).
  - reflexivity.
  - intros x [<-|[]]. rewrite <- indexOf_found. vm_compute. discriminate.
Defined.

(** ** The play handler: categories *)




(** ** The play handler: the current track *)

Lemma SameCurrent_random (c : Conv) : SameCurrent c (tick_random c).
Proof. reflexivity. Qed.

Lemma SameCurrent_say (f : Fragment) (c : Conv) :
  is_media f = false -> SameCurrent c (push_asked f c).
Proof. reflexivity. Qed.


(** ** Suggestions *)






(** ** Repeat *)

(** On a catalog without tracks [Repeat] throws while it builds the
    suggestions. *)
Lemma repeat_counterexample :
  ~ (forall env conv,
        currentTrack conv = None -> fst (Repeat env conv) = Returned tt).
Proof.
  intros H. specialize (H sampleEnv (sampleConv []) eq_refl).
  vm_compute in H. discriminate H.
Qed.

(** C9, amended.  With a catalog that is populated and not empty and no
    [currentTrack], [Repeat] returns after asking the fallback message and
    six suggestions, and hands out no media object.  With a [currentTrack]
    it hands out one media object, the one of that track. *)
Theorem repeat_track (env : Env) (conv : Conv) :
  (forall j,
      json conv = Some j -> tracks j <> [] -> currentTrack conv = None ->
      Repeat env conv =
      (Returned tt,
       add_asked [Text ("Sorry, I do not know what track you want to play. " ++
                        "What else do you want to listen to?");
                  Chips (slots env (tracks j) (randomCalls conv) (seq 0 6))]
                 (add_random 6 conv)) /\
      length (slots env (tracks j) (randomCalls conv) (seq 0 6)) = 6 /\
      mediaAsked (snd (Repeat env conv)) = mediaAsked conv) /\
  (forall t,
      currentTrack conv = Some t ->
      mediaAsked (snd (Repeat env conv)) =
      (mediaAsked conv ++ [Media (generateMediaResponse t)])%list /\
      forall j,
        json conv = Some j -> tracks j <> [] ->
        Repeat env conv =
        (Returned tt,
         add_asked [Text ("Once again, here's " ++ track_title t);
                    Media (generateMediaResponse t);
                    Chips (slots env (tracks j) (randomCalls conv) (seq 0 6))]
                   (add_random 6 conv))).
Proof.
  split.
  - intros j Hj Hne Hcur.
    assert (Hrun : Repeat env conv =
      (Returned tt,
       add_asked [Text ("Sorry, I do not know what track you want to play. " ++
                        "What else do you want to listen to?");
                  Chips (slots env (tracks j) (randomCalls conv) (seq 0 6))]
                 (add_random 6 conv))).
    { unfold Repeat. rewrite bind_run, getConv_run. cbv beta iota. rewrite Hcur.
      repeat run_step Hj Hne. conv_eq. }
    split; [exact Hrun|]. split; [apply slots_length|].
    rewrite Hrun. cbn [snd]. rewrite mediaAsked_add_asked. simpl. apply app_nil_r.
  - intros t Hcur. split.
    + unfold Repeat. rewrite bind_run, getConv_run. cbv beta iota. rewrite Hcur.
      rewrite bind_run, ask_run. cbv beta iota.
      rewrite bind_run, ask_run. cbv beta iota.
      rewrite (frames_suggest SameMedia SameMedia_refl SameMedia_trans
                 (fun c => eq_refl) SameMedia_say env).
      unfold mediaAsked. simpl. rewrite !filter_app. simpl.
      now rewrite app_nil_r.
    + intros j Hj Hne.
      unfold Repeat. rewrite bind_run, getConv_run. cbv beta iota. rewrite Hcur.
      repeat run_step Hj Hne. conv_eq.
Qed.

Lemma repeat_track_witness :
  fst (Repeat sampleEnv (sampleConv [arena])) = Returned tt /\
  mediaAsked (snd (Repeat sampleEnv (sampleConv [arena]))) = [].
Proof.
  destruct (proj1 (repeat_track sampleEnv (sampleConv [arena])) (mkResponse [arena]))
    as [Hrun [_ Hmedia]].
  - reflexivity.
  - discriminate.
  - reflexivity.
  - split; [now rewrite Hrun | exact Hmedia].
Defined.

(** ** Search *)

Lemma searchHitb_SearchHit (searchParam : string) (track : TabletopAudioTrack) :
  searchHitb searchParam track = true <-> SearchHit searchParam track.
Proof.
  unfold searchHitb, SearchHit.
  rewrite !orb_true_iff, indexOf_found, !includes_In. tauto.
Qed.

Lemma searchLoop_filter (searchParam : string) (remaining : list TabletopAudioTrack) :
  forall trackOut,
    searchLoop (JsString.toLowerCase searchParam) remaining trackOut =
    (trackOut ++ map track_title (filter (searchHitb searchParam) remaining))%list.
Proof.
  induction remaining as [|x later IH]; intros trackOut.
  - simpl. now rewrite app_nil_r.
  - cbn [searchLoop filter]. fold (searchHitb searchParam x).
    destruct (searchHitb searchParam x).
    + rewrite IH, <- app_assoc. reflexivity.
    + apply IH.
Qed.

(** C6.  The [Search] handler counts a track as a hit exactly when the
    lower-cased search term occurs in its lower-cased title or equals one
    of its lower-cased genres or tags (colons are left alone).  With one
    hit it names that title; with several it tells their number and the
    first three titles; with none it takes the fallback path, which asks
    an apology and six suggestions on a catalog that is not empty.  In no
    case does it hand out a media object or change [currentTrack]. *)
Theorem search_hits (env : Env) (searchParam : string) (conv : Conv)
        (j : TabletopAudioResponse) :
  json conv = Some j ->
  let hits := filter (searchHitb searchParam) (tracks j) in
  let titles := map track_title hits in
  (forall t, searchHitb searchParam t = true <-> SearchHit searchParam t) /\
  (forall t, In t hits <-> In t (tracks j) /\ SearchHit searchParam t) /\
  (forall t, hits = [t] ->
     Search env searchParam conv =
     (Returned tt,
      add_asked [Text ("There is 1 track. It is called " ++ track_title t ++
                       ". What should I play?")] conv)) /\
  (1 < length hits ->
     Search env searchParam conv =
     (Returned tt,
      add_asked [Text ("There are " ++ JsString.ofNat (length hits) ++
                       " tracks that I found.");
                 Text ("The first three are called " ++
                       JsString.join ", " (firstn 3 titles) ++ ". What should I play?");
                 Chips (map Some (firstn 8 titles))] conv)) /\
  (hits = [] ->
     (tracks j = [] -> fst (Search env searchParam conv) = Thrown TypeError /\
                       asked (snd (Search env searchParam conv)) = asked conv) /\
     (tracks j <> [] ->
      exists first,
        nth_error (slots env (tracks j) (randomCalls conv) (seq 0 6)) 0 = Some first /\
        Search env searchParam conv =
        (Returned tt,
         add_asked [Simple
                      "I am unable to find that audio for you. What else do you want to listen to?"
                      ("I am unable to find that audio, but I found others like " ++
                       interpolate first ++ ". What would you like to listen to?");
                    Chips (slots env (tracks j) (randomCalls conv) (seq 0 6))]
                   (add_random 6 conv)))) /\
  currentTrack (snd (Search env searchParam conv)) = currentTrack conv /\
  mediaAsked (snd (Search env searchParam conv)) = mediaAsked conv.
Proof.
  intros Hj hits titles.
  assert (Hstart : Search env searchParam conv =
    (let trackOut := titles in
     if (length trackOut =? 1)%nat then
       ask (Text ("There is 1 track. It is called " ++ interpolate (nth_error trackOut 0) ++
                  ". What should I play?"))
     else if (1 <? length trackOut)%nat then
       ask (Text ("There are " ++ JsString.ofNat (length trackOut) ++ " tracks that I found.")) ;;
       ask (Text ("The first three are called " ++ JsString.join ", " (firstn 3 trackOut) ++
                  ". What should I play?")) ;;
       ask (Chips (map Some (firstn 8 trackOut)))
     else
       catalog' <- dataTracks ;;
       suggestions <- getSuggestions env catalog' ;;
       first <- firstSuggestion suggestions ;;
       ask (Simple
              "I am unable to find that audio for you. What else do you want to listen to?"
              ("I am unable to find that audio, but I found others like " ++
               first ++ ". What would you like to listen to?")) ;;
       ask (Chips suggestions)) conv).
  { unfold Search. cbv zeta. rewrite bind_run, (dataTracks_run _ _ Hj). cbv beta iota.
    rewrite searchLoop_filter. reflexivity. }
  split; [apply searchHitb_SearchHit|].
  split.
  { intros t. unfold hits. rewrite filter_In, searchHitb_SearchHit. tauto. }
  split.
  { intros t Ht. rewrite Hstart. unfold titles. rewrite Ht. reflexivity. }
  split.
  { intros Hlen. rewrite Hstart. cbv zeta. unfold titles. rewrite !length_map.
    destruct (Nat.eqb_spec (length hits) 1) as [E|_]; [lia|].
    destruct (Nat.ltb_spec 1 (length hits)) as [_|E]; [|lia].
    repeat run_step Hj Hj. conv_eq. }
  split.
  { intros Hnil. rewrite Hstart. unfold titles. rewrite Hnil. cbn [map length Nat.eqb Nat.ltb Nat.leb].
    cbv zeta. split.
    - intros Hempty. rewrite bind_run, (dataTracks_run _ _ Hj). cbv beta iota.
      rewrite Hempty, bind_run, getSuggestions_empty. split; reflexivity.
    - intros Hne.
      destruct (slots env (tracks j) (randomCalls conv) (seq 0 6)) as [|first rest] eqn:E;
        [discriminate|].
      exists first. split; [reflexivity|].
      repeat run_step Hj Hne. rewrite E. cbn [firstSuggestion].
      repeat run_step Hj Hne. conv_eq. }
  split.
  - apply (frames_Search SameCurrent SameCurrent_refl SameCurrent_trans
             SameCurrent_random SameCurrent_say).
  - apply (frames_Search SameMedia SameMedia_refl SameMedia_trans
             (fun c => eq_refl) SameMedia_say).
Qed.

Lemma search_hits_witness :
  Search sampleEnv "COMBAT" (sampleConv [starshipBridge; forestDay; arena]) =
  (Returned tt,
   add_asked [Text "There are 2 tracks that I found.";
              Text "The first three are called Starship Bridge, Arena. What should I play?";
              Chips [Some "Starship Bridge"; Some "Arena"]]
             (sampleConv [starshipBridge; forestDay; arena])).
Proof.
  apply (proj1 (proj2 (proj2 (proj2
           (search_hits sampleEnv "COMBAT" (sampleConv [starshipBridge; forestDay; arena])
                        (mkResponse [starshipBridge; forestDay; arena]) eq_refl))))).
  vm_compute. reflexivity.
Defined.

(** The play handler finds [Forest: Day] for the words [forest day]; the
    search handler, which leaves the colon in the title, does not. *)
Example search_keeps_colons :
  matchTracks [forestDay] "forest day" = ExactTitle forestDay /\
  filter (searchHitb "forest day") [forestDay] = [].
Proof. split; reflexivity. Qed.

(** ** The catalog cache *)

Lemma cacheResults_populated (env : Env) (conv : Conv) (j : TabletopAudioResponse) :
  json conv = Some j -> cacheResults env conv = (Returned tt, conv).
Proof.
  intros H. unfold cacheResults. rewrite bind_run, getConv_run. cbv beta iota.
  now rewrite H.
Qed.

Lemma cacheResults_unset (env : Env) (conv : Conv) :
  json conv = None ->
  cacheResults env conv =
  match remote env (fetchCalls conv) with
  | Some j => (Returned tt, set_json j (tick_fetch conv))
  | None => (Thrown FetchFailure, tick_fetch conv)
  end.
Proof.
  intros H. unfold cacheResults. rewrite bind_run, getConv_run. cbv beta iota.
  rewrite H. unfold fetchJson. rewrite !bind_run, getConv_run. cbv beta iota.
  rewrite bind_run, modify_run. cbv beta iota.
  destruct (remote env (fetchCalls conv)); reflexivity.
Qed.

Lemma SameCatalog_handle (env : Env) (v : Variant) (i : Intent) :
  Frames SameCatalog (handle env v i).
Proof.
  apply frames_handle;
    solve [ apply SameCatalog_refl | apply SameCatalog_trans
          | intros; repeat split ].
Qed.

Lemma SameCatalog_setSessionEntities : Frames SameCatalog setSessionEntities.
Proof.
  apply frames_setSessionEntities;
    solve [ apply SameCatalog_refl | apply SameCatalog_trans
          | intros; repeat split ].
Qed.

Lemma SameCatalog_afterCache (env : Env) (v : Variant) (i : Intent) :
  Frames SameCatalog (afterCache env v i).
Proof.
  destruct v; cbn [afterCache]; [apply SameCatalog_handle|].
  apply (frames_bind SameCatalog SameCatalog_trans).
  - apply SameCatalog_setSessionEntities.
  - intros _. apply SameCatalog_handle.
Qed.

Lemma turn_afterCache (env : Env) (v : Variant) (i : Intent) (conv : Conv) :
  turn env v i conv =
  match cacheResults env conv with
  | (Returned _, conv') => afterCache env v i conv'
  | (Thrown e, conv') => (Thrown e, conv')
  end.
Proof.
  unfold turn, middleware, afterCache. destruct v; rewrite !bind_run.
  - destruct (cacheResults env conv) as [[[]|e] c']; reflexivity.
  - destruct (cacheResults env conv) as [[[]|e] c']; [|reflexivity].
    rewrite bind_run. destruct (setSessionEntities c') as [[[]|e] c'']; reflexivity.
Qed.






(** * Further properties of the webhook *)

(** ** Normal forms *)




Lemma noColon_toLowerCase (s : string) :
  noColon s = true -> noColon (JsString.toLowerCase s) = true.
Proof.
  unfold noColon. induction s as [|c t IH]; simpl; [reflexivity|].
  intros H. apply andb_true_iff in H as [Hc Ht].
  now rewrite unit_toLowerCase_not_colon, Hc, IH.
Qed.

(** Without colons, normalizing is lower-casing. *)
Lemma sanitizeTitle_colon_free (s : string) :
  noColon s = true -> sanitizeTitle s = JsString.toLowerCase s.
Proof.
  intros H. apply noColon_toLowerCase in H. unfold sanitizeTitle.
  rewrite (replaceWordColonWord_fixed _ H). now apply removeColons_fixed.
Qed.


(** ** Queries against the catalog *)

Lemma string_app_assoc (x y z : string) : (x ++ y) ++ z = x ++ (y ++ z).
Proof.
  induction x as [|c x IH]; [reflexivity|].
  change (String c ((x ++ y) ++ z) = String c (x ++ (y ++ z))).
  now rewrite IH.
Qed.

Lemma Substring_trans (a b c : string) :
  JsString.Substring a b -> JsString.Substring b c -> JsString.Substring a c.
Proof.
  intros [p1 [q1 H1]] [p2 [q2 H2]]. subst.
  exists (p2 ++ p1), (q1 ++ q2).
  now rewrite !string_app_assoc.
Qed.

Lemma TitleHit_self (t : TabletopAudioTrack) : TitleHit (track_title t) t.
Proof. apply Substring_refl. Qed.

Lemma nth_error_middle (pre post : list TabletopAudioTrack) (t : TabletopAudioTrack) :
  nth_error (pre ++ t :: post)%list (length pre) = Some t.
Proof. rewrite nth_error_app2, Nat.sub_diag by lia. reflexivity. Qed.

(** X2.  A query that is part of another finds at least as much: if the
    play handler finds a title for [longer], it finds one for every
    [shorter] whose normal form occurs in that of [longer], and the track
    found stands at the same place of the catalog or before. *)
Theorem play_shorter_query (catalog : list TabletopAudioTrack)
        (longer shorter : string) (t : TabletopAudioTrack) :
  JsString.Substring (sanitizeTitle shorter) (sanitizeTitle longer) ->
  matchTracks catalog longer = ExactTitle t ->
  exists t' i i',
    matchTracks catalog shorter = ExactTitle t' /\
    nth_error catalog i = Some t /\
    nth_error catalog i' = Some t' /\
    i' <= i.
Proof.
  intros Hsub Hm.
  apply matchTracks_exact in Hm as [pre [post [E [Hpre Ht]]]].
  assert (Ht' : TitleHit shorter t) by (eapply Substring_trans; eauto).
  destruct (first_hit_split (titleTest (sanitizeTitle shorter)) catalog)
    as [pre' [t' [post' [E' [Hpre' Hhit']]]]].
  { exists t. split; [subst; apply in_elt | now apply titleTest_TitleHit]. }
  exists t', (length pre), (length pre').
  split.
  { apply matchTracks_exact. exists pre', post'. split; [exact E'|]. split.
    - intros x Hx. apply not_TitleHit. auto.
    - now apply titleTest_TitleHit. }
  split; [subst catalog; apply nth_error_middle|].
  split; [rewrite E'; apply nth_error_middle|].
  destruct (Nat.le_gt_cases (length pre') (length pre)) as [H|H]; [exact H|].
  exfalso.
  assert (Hn : nth_error catalog (length pre) = Some t)
    by (rewrite E; apply nth_error_middle).
  rewrite E', nth_error_app1 in Hn by exact H.
  apply nth_error_In in Hn. apply Hpre' in Hn.
  apply titleTest_TitleHit in Ht'. congruence.
Qed.

Lemma play_shorter_query_witness :
  exists t', matchTracks [forestDayNight; forestDay] "Forest" = ExactTitle t'.
Proof.
  destruct (play_shorter_query [forestDayNight; forestDay] "forest: day" "Forest" forestDayNight)
    as [t' [i [i' [H _]]]].
  - apply indexOf_found. vm_compute. reflexivity.
  - reflexivity.
  - exists t'. exact H.
Defined.

(** X3.  A title of the catalog said back to the play handler is always
    found: the handler returns with an exact-title answer for a track of
    the catalog whose normalized title contains the normalized words, and
    makes it the current track. *)
Theorem title_chip_playable (env : Env) (conv : Conv) (t : TabletopAudioTrack) :
  In t (catalogOf conv) ->
  exists t',
    In t' (catalogOf conv) /\
    TitleHit (track_title t) t' /\
    matchTracks (catalogOf conv) (track_title t) = ExactTitle t' /\
    fst (searchAndPlay env (track_title t) conv) = Returned tt /\
    currentTrack (snd (searchAndPlay env (track_title t) conv)) = Some t'.
Proof.
  intros Hin.
  destruct (proj2 (matchTracks_exact_exists (catalogOf conv) (track_title t)))
    as [t' Hm]; [exists t; split; [exact Hin | apply TitleHit_self]|].
  exists t'. pose proof Hm as Hm'.
  apply matchTracks_exact in Hm' as [pre [post [E [_ Hhit]]]].
  split; [rewrite E; apply in_elt|]. split; [exact Hhit|]. split; [exact Hm|].
  assert (Hne : catalogOf conv <> []) by (intros H; rewrite H in Hin; destruct Hin).
  destruct (catalogOf_json conv Hne) as [j [Hj Htr]].
  rewrite searchAndPlay_matchTracks, Hj, Htr, Hm.
  rewrite (exactReply_run env t' conv j Hj) by congruence.
  split; reflexivity.
Qed.

Lemma title_chip_playable_witness :
  exists t',
    matchTracks [arena; forestDay] "Forest: Day" = ExactTitle t'.
Proof.
  destruct (title_chip_playable sampleEnv (sampleConv [arena; forestDay]) forestDay)
    as [t' [_ [_ [H _]]]].
  - simpl. auto.
  - exists t'. exact H.
Defined.

(** X4.  A genre or a tag of a track of the catalog, when it holds no
    colon, is never answered with no-match by the play handler: either a
    title contains it, or the category answer is given and the track is
    among those collected. *)
Theorem category_chip_playable (catalog : list TabletopAudioTrack)
        (t : TabletopAudioTrack) (g : string) :
  In t catalog ->
  In g (track_genre t) \/ In g (tags t) ->
  noColon g = true ->
  (exists t', matchTracks catalog g = ExactTitle t' /\ In t' catalog) \/
  (exists found, matchTracks catalog g = CategorySet found /\ In t found).
Proof.
  intros Hin Hg Hcolon.
  assert (Hcat : CategoryHit g t).
  { unfold CategoryHit. rewrite (sanitizeTitle_colon_free g Hcolon).
    destruct Hg as [Hg|Hg]; [left | right]; now apply in_map. }
  destruct (matchTracks catalog g) as [t'|found|] eqn:Hm.
  - left. exists t'. split; [reflexivity|].
    apply matchTracks_exact in Hm as [pre [post [E _]]]. rewrite E. apply in_elt.
  - right. exists found. split; [reflexivity|].
    apply matchTracks_category in Hm as [E _]. rewrite E.
    apply filter_In. split; [exact Hin | now apply categoryTest_CategoryHit].
  - exfalso. now destruct (proj1 (matchTracks_no_match catalog g) Hm t Hin).
Qed.

Lemma category_chip_playable_witness :
  exists found,
    matchTracks [forestDay; starshipBridge] "Sci Fi" = CategorySet found /\
    In starshipBridge found.
Proof.
  destruct (category_chip_playable [forestDay; starshipBridge] starshipBridge "Sci Fi")
    as [[t' [H _]]|H].
  - simpl. auto.
  - left. simpl. auto.
  - reflexivity.
  - vm_compute in H. discriminate H.
  - exact H.
Defined.

(** A genre with a colon is offered as a suggestion, yet the play handler
    does not find it: the search term loses its colon, the genre keeps it. *)
Example colon_genre_not_playable :
  matchTracks [mkTrack "Orbit" ["Sci-Fi: Space"] ["void"] "l" "i" "f"] "Sci-Fi: Space"
  = NoMatch.
Proof. reflexivity. Qed.

Lemma filter_nil_iff {A : Type} (f : A -> bool) (l : list A) :
  filter f l = [] <-> forall x, In x l -> f x = false.
Proof.
  induction l as [|y l IH]; simpl.
  - split; [intros _ x [] | reflexivity].
  - destruct (f y) eqn:Hy.
    + split; [discriminate|]. intros H. rewrite (H y (or_introl eq_refl)) in Hy.
      discriminate.
    + rewrite IH. split.
      * intros H x [<-|Hx]; auto.
      * intros H x Hx. auto.
Qed.

(** X5.  On words and titles without colons the two handlers agree on
    what matches: a track is a hit of [Search] exactly when its title
    contains the words or a genre or tag equals them in the sense of the
    play handler, and [Search] has no hit exactly when the play handler
    answers no-match. *)
Theorem play_search_agree (catalog : list TabletopAudioTrack) (searchString : string) :
  noColon searchString = true ->
  (forall t, In t catalog -> noColon (track_title t) = true) ->
  (forall t, In t catalog ->
             (searchHitb searchString t = true <->
              TitleHit searchString t \/ CategoryHit searchString t)) /\
  (filter (searchHitb searchString) catalog = [] <->
   matchTracks catalog searchString = NoMatch).
Proof.
  intros Hs Htitles.
  assert (Hhit : forall t, In t catalog ->
             (searchHitb searchString t = true <->
              TitleHit searchString t \/ CategoryHit searchString t)).
  { intros t Hin. rewrite searchHitb_SearchHit.
    unfold SearchHit, TitleHit, CategoryHit.
    rewrite (sanitizeTitle_colon_free _ Hs),
            (sanitizeTitle_colon_free _ (Htitles t Hin)).
    tauto. }
  split; [exact Hhit|].
  rewrite filter_nil_iff, matchTracks_no_match.
  split; intros H x Hx; specialize (H x Hx); specialize (Hhit x Hx).
  - split; intros Hc; [assert (searchHitb searchString x = true) by tauto
                      | assert (searchHitb searchString x = true) by tauto];
      congruence.
  - destruct (searchHitb searchString x); [|reflexivity].
    exfalso. destruct (proj1 Hhit eq_refl); tauto.
Qed.

Lemma play_search_agree_witness :
  filter (searchHitb "lullaby") [arena; starshipBridge] = [] <->
  matchTracks [arena; starshipBridge] "lullaby" = NoMatch.
Proof.
  apply (play_search_agree [arena; starshipBridge] "lullaby").
  - reflexivity.
  - intros t [<-|[<-|[]]]; reflexivity.
Defined.

(** ** Suggestions on catalogs of any shape *)

Lemma drawn_track (env : Env) (catalog : list TabletopAudioTrack) (k : nat) :
  catalog <> [] ->
  exists t, nth_error catalog (drawIndex env k (length catalog)) = Some t /\ In t catalog.
Proof.
  intros Hne.
  assert (Hlt : drawIndex env k (length catalog) < length catalog).
  { apply drawIndex_lt. destruct catalog; [congruence | simpl; lia]. }
  destruct (nth_error catalog (drawIndex env k (length catalog))) as [t|] eqn:E;
    [|apply nth_error_None in E; lia].
  exists t. split; [reflexivity | eapply nth_error_In; eauto].
Qed.

Lemma slots_first (env : Env) (catalog : list TabletopAudioTrack) (k : nat) :
  catalog <> [] ->
  exists t rest,
    In t catalog /\
    slots env catalog k (seq 0 6) = Some (track_title t) :: rest.
Proof.
  intros Hne. destruct (drawn_track env catalog k Hne) as [t [E Hin]].
  exists t. eexists. split; [exact Hin|].
  cbn [seq slots]. rewrite E. reflexivity.
Qed.


(** X7.  When the play handler finds nothing on a catalog that is not
    empty, it returns; the title it speaks in the apology is the title of
    a track of the catalog (never the word [undefined]), and that title
    is the first of the six suggestions it adds. *)
Theorem play_fallback_names_title (env : Env) (searchString : string) (conv : Conv)
        (j : TabletopAudioResponse) :
  json conv = Some j -> tracks j <> [] ->
  matchTracks (tracks j) searchString = NoMatch ->
  exists t chips,
    In t (tracks j) /\
    length chips = 6 /\
    nth_error chips 0 = Some (Some (track_title t)) /\
    searchAndPlay env searchString conv =
    (Returned tt,
     add_asked [Simple
                  "I can't find a track with that description. What else do you want to listen to?"
                  ("I can't find a track with that description, but I found others like " ++
                   track_title t ++ ". " ++
                   "You can also ask " ++ dquote ++ "What are the latest tracks?" ++ dquote ++ ". " ++
                   "What would you like to listen to?");
                Chips chips]
               (add_random 6 conv)).
Proof.
  intros Hj Hne Hm.
  destruct (slots_first env (tracks j) (randomCalls conv) Hne) as [t [rest [Hin E]]].
  destruct (noMatchReply_run env conv j Hj Hne) as [first [Hfirst Hrun]].
  rewrite E in Hfirst. inversion Hfirst; subst first.
  exists t, (slots env (tracks j) (randomCalls conv) (seq 0 6)).
  split; [exact Hin|]. split; [apply slots_length|].
  split; [now rewrite E|].
  rewrite searchAndPlay_matchTracks, Hj, Hm. exact Hrun.
Qed.

Lemma play_fallback_names_title_witness :
  exists t,
    In t [arena; forestDay] /\
    fst (searchAndPlay sampleEnv "lullaby" (sampleConv [arena; forestDay])) = Returned tt.
Proof.
  destruct (play_fallback_names_title sampleEnv "lullaby" (sampleConv [arena; forestDay])
              (mkResponse [arena; forestDay]))
    as [t [chips [Hin [_ [_ Hrun]]]]].
  - reflexivity.
  - discriminate.
  - reflexivity.
  - exists t. split; [exact Hin | now rewrite Hrun].
Defined.


(** ** A catalog without tracks *)

Lemma suggest_empty {A : Type} (env : Env) (k : Suggestions -> Handler A)
      (conv : Conv) (j : TabletopAudioResponse) :
  json conv = Some j -> tracks j = [] ->
  (catalog <- dataTracks ;; chips <- getSuggestions env catalog ;; k chips) conv
  = (Thrown TypeError, tick_random conv).
Proof.
  intros Hj He. rewrite bind_run, (dataTracks_run _ _ Hj). cbv beta iota.
  rewrite He, bind_run, getSuggestions_empty. reflexivity.
Qed.

Lemma noMatchReply_empty (env : Env) (conv : Conv) (j : TabletopAudioResponse) :
  json conv = Some j -> tracks j = [] ->
  noMatchReply env conv = (Thrown TypeError, tick_random conv).
Proof. intros Hj He. unfold noMatchReply. now apply (suggest_empty env _ conv j). Qed.

Lemma searchAndPlay_empty (env : Env) (searchString : string) (conv : Conv)
      (j : TabletopAudioResponse) :
  json conv = Some j -> tracks j = [] ->
  searchAndPlay env searchString conv = (Thrown TypeError, tick_random conv).
Proof.
  intros Hj He. rewrite searchAndPlay_matchTracks, Hj, He.
  change (matchTracks [] searchString) with NoMatch. cbv iota.
  now apply (noMatchReply_empty env conv j).
Qed.

(** X9.  With a catalog that holds no track, [New] still returns, and so
    does [Play Entity] without a usable parameter; every other intent that
    has a handler ends in a [TypeError], thrown where the handler reads
    the first track or builds the suggestions. *)
Theorem empty_catalog_outcomes (env : Env) (v : Variant) (i : Intent) (conv : Conv)
        (j : TabletopAudioResponse) :
  json conv = Some j -> tracks j = [] ->
  fst (handle env v i conv) =
  match i, v with
  | NewIntent, _ => Returned tt
  | PlayEntityIntent _ _ _, PlainApp => Thrown IntentHandlerNotFound
  | PlayEntityIntent title genre tag, SessionEntitiesApp =>
      if truthy (orElse (orElse title genre) tag) then Thrown TypeError else Returned tt
  | _, _ => Thrown TypeError
  end.
Proof.
  intros Hj He.
  destruct i as [lastSeen|search|title genre tag| | | | |search|mediaStatus];
    cbn [handle].
  - destruct v.
    + unfold WelcomePlain.
      rewrite bind_run, (dataTracks_run _ _ Hj). cbv beta iota. rewrite He. reflexivity.
    + unfold WelcomeEntities.
      rewrite bind_run, (dataTracks_run _ _ Hj). cbv beta iota. rewrite He. reflexivity.
  - unfold Play. rewrite (searchAndPlay_empty env search conv j Hj He).
    destruct v; reflexivity.
  - destruct v; [reflexivity|]. unfold PlayEntity. cbv zeta.
    destruct (orElse (orElse title genre) tag) as [s|] eqn:E; [|reflexivity].
    destruct (truthy (Some s)); [|reflexivity].
    now rewrite (searchAndPlay_empty env s conv j Hj He).
  - assert (H : fst (Repeat env conv) = Thrown TypeError).
    { unfold Repeat. rewrite bind_run, getConv_run. cbv beta iota.
      destruct (currentTrack conv).
      + rewrite bind_run, ask_run. cbv beta iota. rewrite bind_run, ask_run. cbv beta iota.
        rewrite (suggest_empty env _ _ j); [reflexivity | exact Hj | exact He].
      + rewrite bind_run, ask_run. cbv beta iota.
        rewrite (suggest_empty env _ _ j); [reflexivity | exact Hj | exact He]. }
    rewrite H. destruct v; reflexivity.
  - assert (H : fst (Current env conv) = Thrown TypeError).
    { unfold Current. rewrite bind_run, getConv_run. cbv beta iota.
      destruct (currentTrack conv); rewrite bind_run, ask_run; cbv beta iota;
        (rewrite (suggest_empty env _ _ j); [reflexivity | exact Hj | exact He]). }
    rewrite H. destruct v; reflexivity.
  - assert (H : fst (New conv) = Returned tt).
    { unfold New. rewrite bind_run, (dataTracks_run _ _ Hj). reflexivity. }
    rewrite H. destruct v; reflexivity.
  - assert (H : fst (Help conv) = Thrown TypeError).
    { unfold Help. rewrite bind_run, (dataTracks_run _ _ Hj). cbv beta iota.
      rewrite He. reflexivity. }
    rewrite H. destruct v; reflexivity.
  - assert (H : fst (Search env search conv) = Thrown TypeError).
    { unfold Search. cbv zeta. rewrite bind_run, (dataTracks_run _ _ Hj). cbv beta iota.
      rewrite He. cbn [searchLoop length Nat.eqb Nat.ltb Nat.leb].
      rewrite (suggest_empty env _ _ j); [reflexivity | exact Hj | exact He]. }
    rewrite H. destruct v; reflexivity.
  - assert (H : fst (MediaStatus env mediaStatus conv) = Thrown TypeError).
    { unfold MediaStatus. cbv zeta.
      rewrite bind_run, ask_run. cbv beta iota. rewrite bind_run, ask_run. cbv beta iota.
      rewrite (suggest_empty env _ _ j); [reflexivity | exact Hj | exact He]. }
    rewrite H. destruct v; reflexivity.
Qed.

Lemma empty_catalog_outcomes_witness :
  fst (handle sampleEnv PlainApp HelpIntent (sampleConv [])) = Thrown TypeError /\
  fst (handle sampleEnv PlainApp NewIntent (sampleConv [])) = Returned tt.
Proof.
  split.
  - apply (empty_catalog_outcomes sampleEnv PlainApp HelpIntent (sampleConv [])
             (mkResponse [])); reflexivity.
  - apply (empty_catalog_outcomes sampleEnv PlainApp NewIntent (sampleConv [])
             (mkResponse [])); reflexivity.
Defined.

(** ** Current, New, media status, Play Entity *)

Lemma current_reports_aux (env : Env) (conv : Conv) (j : TabletopAudioResponse) :
  json conv = Some j -> tracks j <> [] ->
  exists text,
    Current env conv =
    (Returned tt,
     add_asked [Text text; Chips (slots env (tracks j) (randomCalls conv) (seq 0 6))]
               (add_random 6 conv)) /\
    (currentTrack conv = None ->
     text = "Sorry, I don't think anything is playing. What do you want to listen to?") /\
    (forall t, currentTrack conv = Some t ->
               text = "This is " ++ track_title t ++ " from Tabletop Audio. " ++
                      flavor_text t).
Proof.
  intros Hj Hne.
  unfold Current. rewrite bind_run, getConv_run. cbv beta iota.
  destruct (currentTrack conv) as [t|] eqn:Hcur.
  - eexists. split; [repeat run_step Hj Hne; conv_eq|].
    split; [discriminate|]. intros t' H. now inversion H.
  - eexists. split; [repeat run_step Hj Hne; conv_eq|].
    split; [reflexivity|]. discriminate.
Qed.

(** X10.  On a catalog that is not empty [Current] returns after one text
    and six suggestions: the text names the current track and its flavor
    text, or says that nothing is playing.  It hands out no media object
    and leaves the session storage as it was. *)
Theorem current_reports (env : Env) (conv : Conv) (j : TabletopAudioResponse) :
  json conv = Some j -> tracks j <> [] ->
  exists text,
    Current env conv =
    (Returned tt,
     add_asked [Text text; Chips (slots env (tracks j) (randomCalls conv) (seq 0 6))]
               (add_random 6 conv)) /\
    (currentTrack conv = None ->
     text = "Sorry, I don't think anything is playing. What do you want to listen to?") /\
    (forall t, currentTrack conv = Some t ->
               text = "This is " ++ track_title t ++ " from Tabletop Audio. " ++
                      flavor_text t) /\
    mediaAsked (snd (Current env conv)) = mediaAsked conv /\
    currentTrack (snd (Current env conv)) = currentTrack conv /\
    json (snd (Current env conv)) = json conv.
Proof.
  intros Hj Hne.
  destruct (current_reports_aux env conv j Hj Hne) as [text [Hrun [Hnone Hsome]]].
  exists text. rewrite Hrun. repeat split; auto.
  cbn [snd]. rewrite mediaAsked_add_asked. simpl. apply app_nil_r.
Qed.

Lemma current_reports_witness :
  fst (Current sampleEnv (sampleConv [arena])) = Returned tt.
Proof.
  destruct (current_reports sampleEnv (sampleConv [arena]) (mkResponse [arena]))
    as [text [Hrun _]].
  - reflexivity.
  - discriminate.
  - now rewrite Hrun.
Defined.

Lemma Repeat_with_track (env : Env) (conv : Conv) (t : TabletopAudioTrack) :
  currentTrack conv = Some t ->
  mediaAsked (snd (Repeat env conv)) =
  (mediaAsked conv ++ [Media (generateMediaResponse t)])%list /\
  currentTrack (snd (Repeat env conv)) = Some t.
Proof.
  intros Hcur. unfold Repeat. rewrite bind_run, getConv_run. cbv beta iota. rewrite Hcur.
  rewrite bind_run, ask_run. cbv beta iota.
  rewrite bind_run, ask_run. cbv beta iota.
  split.
  - rewrite (frames_suggest SameMedia SameMedia_refl SameMedia_trans
               (fun c => eq_refl) SameMedia_say env).
    unfold mediaAsked. simpl. rewrite !filter_app. simpl.
    now rewrite app_nil_r.
  - rewrite (frames_suggest SameCurrent SameCurrent_refl SameCurrent_trans
               SameCurrent_random SameCurrent_say env).
    exact Hcur.
Qed.

(** X11.  What [Play] found is what [Repeat] and [Current] give back: after
    an exact-title answer for [t], [Repeat] hands out the media object of
    [t] again and [Current] names [t], both leaving it the current
    track. *)
Theorem play_then_repeat_current (env : Env) (searchString : string) (conv : Conv)
        (t : TabletopAudioTrack) :
  matchTracks (catalogOf conv) searchString = ExactTitle t ->
  let played := snd (searchAndPlay env searchString conv) in
  mediaAsked (snd (Repeat env played)) =
  (mediaAsked conv ++ [Media (generateMediaResponse t);
                       Media (generateMediaResponse t)])%list /\
  currentTrack (snd (Repeat env played)) = Some t /\
  (exists chips,
      asked (snd (Current env played)) =
      (asked played ++ [Text ("This is " ++ track_title t ++ " from Tabletop Audio. " ++
                              flavor_text t);
                        Chips chips])%list) /\
  currentTrack (snd (Current env played)) = Some t.
Proof.
  intros Hm played.
  assert (Hcne : catalogOf conv <> []).
  { apply (matchTracks_nonempty _ searchString). rewrite Hm. discriminate. }
  destruct (catalogOf_json conv Hcne) as [j [Hj Htr]].
  assert (Hplayed : played =
    set_currentTrack t
      (add_asked [Text ("Here is " ++ track_title t ++ ".");
                  Media (generateMediaResponse t);
                  Chips (slots env (tracks j) (randomCalls conv) (seq 0 6))]
                 (add_random 6 conv))).
  { unfold played. rewrite <- Htr in Hm. rewrite searchAndPlay_matchTracks, Hj, Hm.
    rewrite (exactReply_run env t conv j Hj) by congruence. reflexivity. }
  assert (Hcur : currentTrack played = Some t) by (rewrite Hplayed; reflexivity).
  assert (Hjp : json played = Some j) by (rewrite Hplayed; exact Hj).
  assert (Hmedia : mediaAsked played =
                   (mediaAsked conv ++ [Media (generateMediaResponse t)])%list).
  { rewrite Hplayed. unfold mediaAsked. simpl. now rewrite filter_app. }
  destruct (Repeat_with_track env played t Hcur) as [Hr1 Hr2].
  split; [rewrite Hr1, Hmedia, <- app_assoc; reflexivity|].
  split; [exact Hr2|].
  destruct (current_reports_aux env played j Hjp ltac:(congruence))
    as [text [Hrun [_ Hsome]]].
  rewrite Hrun. cbn [snd]. split.
  - eexists. rewrite (Hsome t Hcur). reflexivity.
  - exact Hcur.
Qed.

Lemma play_then_repeat_current_witness :
  currentTrack
    (snd (Repeat sampleEnv
            (snd (searchAndPlay sampleEnv "arena" (sampleConv [forestDay; arena])))))
  = Some arena.
Proof.
  apply (play_then_repeat_current sampleEnv "arena" (sampleConv [forestDay; arena]) arena).
  reflexivity.
Defined.

Lemma In_firstn {A : Type} (n : nat) (l : list A) (x : A) :
  In x (firstn n l) -> In x l.
Proof.
  revert l. induction n as [|n IH]; intros [|y l] H; simpl in *; try contradiction.
  destruct H as [H|H]; auto.
Qed.

(** X12.  [New] needs no track: on every populated catalog, the empty one
    included, it returns without a draw, naming the titles of the first
    three tracks (fewer when the catalog is shorter) in catalog order and
    offering the same titles as chips.  Each of them, said back to the
    play handler, gets an exact-title answer. *)
Theorem new_lists_first_three (conv : Conv) (j : TabletopAudioResponse) :
  json conv = Some j ->
  let titles := map track_title (firstn 3 (tracks j)) in
  New conv =
  (Returned tt,
   add_asked [Text ("The last three tracks added to Tabletop Audio are: " ++
                    JsString.join "," titles ++ ". What do you want to listen to?");
              Chips (map Some titles)] conv) /\
  length titles = Nat.min 3 (length (tracks j)) /\
  (forall title, In title titles ->
     exists t, matchTracks (tracks j) title = ExactTitle t /\ In t (tracks j)).
Proof.
  intros Hj titles. split; [|split].
  - unfold New. cbv zeta. rewrite bind_run, (dataTracks_run _ _ Hj). cbv beta iota.
    rewrite bind_run, ask_run. cbv beta iota. rewrite ask_run. fold titles.
    replace (map (fun track => Some (track_title track)) (firstn 3 (tracks j)))
      with (map Some titles) by (unfold titles; now rewrite map_map).
    conv_eq.
  - unfold titles. now rewrite length_map, length_firstn.
  - intros title Hin. unfold titles in Hin. apply in_map_iff in Hin as [t [<- Hin]].
    apply In_firstn in Hin.
    destruct (proj2 (matchTracks_exact_exists (tracks j) (track_title t)))
      as [t' Hm]; [exists t; split; [exact Hin | apply TitleHit_self]|].
    exists t'. split; [exact Hm|].
    apply matchTracks_exact in Hm as [pre [post [E _]]]. rewrite E. apply in_elt.
Qed.

Lemma new_lists_first_three_witness :
  fst (New (sampleConv [])) = Returned tt /\
  asked (snd (New (sampleConv [arena; forestDay; starshipBridge; forestDayNight]))) =
  [Text "The last three tracks added to Tabletop Audio are: Arena,Forest: Day,Starship Bridge. What do you want to listen to?";
   Chips [Some "Arena"; Some "Forest: Day"; Some "Starship Bridge"]].
Proof.
  split.
  - now rewrite (proj1 (new_lists_first_three (sampleConv []) (mkResponse []) eq_refl)).
  - now rewrite (proj1 (new_lists_first_three
                          (sampleConv [arena; forestDay; starshipBridge; forestDayNight])
                          (mkResponse [arena; forestDay; starshipBridge; forestDayNight])
                          eq_refl)).
Defined.

(** X13.  The media-status handler says the farewell only for the status
    [FINISHED], spelled exactly so; for any other status, and when the
    request carries none, it says that the status is unknown.  Either way
    it then offers [Repeat] and six suggestions, on a catalog that is not
    empty. *)
Theorem media_status_finished (env : Env) (mediaStatus : option string) (conv : Conv)
        (j : TabletopAudioResponse) :
  json conv = Some j -> tracks j <> [] ->
  exists response,
    MediaStatus env mediaStatus conv =
    (Returned tt,
     add_asked [Text response; Chips [Some "Repeat"];
                Chips (slots env (tracks j) (randomCalls conv) (seq 0 6))]
               (add_random 6 conv)) /\
    (mediaStatus = Some "FINISHED" ->
     response = "Hope you enjoyed that song. What else do you want to listen to?") /\
    (mediaStatus <> Some "FINISHED" -> response = "Unknown media status received.").
Proof.
  intros Hj Hne. unfold MediaStatus. cbv zeta.
  eexists. split; [repeat run_step Hj Hne; conv_eq|].
  split.
  - intros ->. reflexivity.
  - intros H. destruct mediaStatus as [status|]; [|reflexivity].
    destruct (String.eqb_spec status "FINISHED") as [->|]; [congruence | reflexivity].
Qed.

Lemma media_status_finished_witness :
  exists response,
    nth_error (asked (snd (MediaStatus sampleEnv (Some "finished") (sampleConv [arena])))) 0
    = Some (Text response) /\
    response = "Unknown media status received.".
Proof.
  destruct (media_status_finished sampleEnv (Some "finished") (sampleConv [arena])
              (mkResponse [arena])) as [response [Hrun [_ Hother]]].
  - reflexivity.
  - discriminate.
  - exists response. split; [now rewrite Hrun | apply Hother; discriminate].
Defined.

(** X14.  [Play Entity] plays the title when there is one, else the genre,
    else the tag, a parameter that is missing or empty counting as not
    there; with none of the three it only asks what to play, once, and
    changes nothing else. *)
Theorem play_entity_precedence (env : Env) (title genre tag : option string) :
  (forall s, title = Some s -> s <> EmptyString ->
             PlayEntity env title genre tag = searchAndPlay env s) /\
  (forall s, truthy title = false -> genre = Some s -> s <> EmptyString ->
             PlayEntity env title genre tag = searchAndPlay env s) /\
  (forall s, truthy title = false -> truthy genre = false ->
             tag = Some s -> s <> EmptyString ->
             PlayEntity env title genre tag = searchAndPlay env s) /\
  (truthy title = false -> truthy genre = false -> truthy tag = false ->
   forall conv,
     PlayEntity env title genre tag conv =
     (Returned tt,
      add_asked [Text "I apologize, I do not know what you are looking for. What do you want to play?"]
                conv)).
Proof.
  assert (Htruthy : forall s, s <> EmptyString -> truthy (Some s) = true).
  { intros s Hs. simpl. now destruct (String.eqb_spec s EmptyString). }
  unfold PlayEntity, orElse. cbv zeta.
  split; [|split; [|split]].
  - intros s -> Hs. now rewrite !(Htruthy s Hs).
  - intros s Ht -> Hs. now rewrite Ht, !(Htruthy s Hs).
  - intros s Ht Hg -> Hs. now rewrite Ht, Hg, !(Htruthy s Hs).
  - intros Ht Hg Htag conv. rewrite Ht, Hg.
    destruct tag as [s|]; [rewrite Htag|]; rewrite ask_run; conv_eq.
Qed.

(** ** Session entities *)

Ltac conv_eq_all :=
  apply f_equal;
  unfold set_currentTrack, add_asked, add_random, push_asked, tick_random,
         mark_sent, add_entities, push_entity;
  cbn [json currentTrack asked sessionEntities sessionEntitiesSent
       randomCalls fetchCalls fetchStored];
  f_equal; cbn [app Nat.add]; rewrite <- ?app_assoc; reflexivity.

Lemma setAdd_In (s : list string) (y x : string) :
  In x (setAdd s y) <-> In x s \/ x = y.
Proof.
  unfold setAdd. destruct (JsString.includes s y) eqn:E.
  - apply includes_In in E. split; [auto | intros [H|H]; [exact H | now subst]].
  - rewrite in_app_iff. simpl. intuition.
Qed.

Lemma setAdd_NoDup (s : list string) (y : string) :
  NoDup s -> NoDup (setAdd s y).
Proof.
  intros H. unfold setAdd. destruct (JsString.includes s y) eqn:E; [exact H|].
  assert (Hn : ~ In y s).
  { intros Hin. apply includes_In in Hin. congruence. }
  clear E. induction H as [|z s Hz Hs IH]; simpl.
  - constructor; [intros [] | constructor].
  - constructor.
    + rewrite in_app_iff. simpl. intros [H|[H|[]]]; [contradiction|].
      subst. apply Hn. now left.
    + apply IH. intros H. apply Hn. now right.
Qed.

Lemma fold_setAdd_In (l : list string) :
  forall acc x, In x (fold_left setAdd l acc) <-> In x acc \/ In x l.
Proof.
  induction l as [|y l IH]; intros acc x; simpl; [tauto|].
  rewrite IH, setAdd_In. intuition.
Qed.

Lemma fold_setAdd_NoDup (l : list string) :
  forall acc, NoDup acc -> NoDup (fold_left setAdd l acc).
Proof.
  induction l as [|y l IH]; intros acc H; simpl; [exact H|].
  apply IH, setAdd_NoDup, H.
Qed.

Lemma fold_setAdd_flat_map (f : TabletopAudioTrack -> list string)
      (catalog : list TabletopAudioTrack) :
  forall acc,
    fold_left (fun acc track => fold_left setAdd (f track) acc) catalog acc =
    fold_left setAdd (flat_map f catalog) acc.
Proof.
  induction catalog as [|t later IH]; intros acc; simpl; [reflexivity|].
  now rewrite IH, fold_left_app.
Qed.

Lemma setOf_In (l : list string) (x : string) : In x (setOf l) <-> In x l.
Proof. unfold setOf. rewrite fold_setAdd_In. simpl. tauto. Qed.

Lemma setOf_NoDup (l : list string) : NoDup (setOf l).
Proof. apply fold_setAdd_NoDup. constructor. Qed.

Lemma setSessionEntities_run (conv : Conv) (j : TabletopAudioResponse) :
  json conv = Some j ->
  setSessionEntities conv =
  (Returned tt,
   add_entities
     [mkEntityType "track" (map entityOf (setOf (map track_title (tracks j))));
      mkEntityType "genre" (map entityOf (setOf (flat_map track_genre (tracks j))));
      mkEntityType "tag" (map entityOf (setOf (flat_map tags (tracks j))))]
     conv).
Proof.
  intros Hj. unfold setSessionEntities.
  rewrite bind_run, (dataTracks_run _ _ Hj). cbv beta iota zeta.
  rewrite !fold_setAdd_flat_map. fold (setOf (map track_title (tracks j))).
  fold (setOf (flat_map track_genre (tracks j))).
  fold (setOf (flat_map tags (tracks j))).
  rewrite bind_run, modify_run. cbv beta iota.
  rewrite bind_run, modify_run. cbv beta iota.
  rewrite modify_run. conv_eq_all.
Qed.

(** X15.  [setSessionEntities] registers three entity types, [track],
    [genre] and [tag], in this order.  Their values are the titles, the
    genres and the tags of the catalog, each value once however often it
    occurs, and each entity has its value as its only synonym.  Nothing
    else of the conversation object changes. *)
Theorem session_entities_are_sets (conv : Conv) (j : TabletopAudioResponse) :
  json conv = Some j ->
  exists titles genres tags',
    setSessionEntities conv =
    (Returned tt,
     add_entities [mkEntityType "track" (map entityOf titles);
                   mkEntityType "genre" (map entityOf genres);
                   mkEntityType "tag" (map entityOf tags')] conv) /\
    NoDup titles /\ NoDup genres /\ NoDup tags' /\
    (forall x, In x titles <-> exists t, In t (tracks j) /\ track_title t = x) /\
    (forall x, In x genres <-> exists t, In t (tracks j) /\ In x (track_genre t)) /\
    (forall x, In x tags' <-> exists t, In t (tracks j) /\ In x (tags t)) /\
    (forall name, entity_value (entityOf name) = name /\
                  entity_synonyms (entityOf name) = [name]).
Proof.
  intros Hj.
  exists (setOf (map track_title (tracks j))),
         (setOf (flat_map track_genre (tracks j))),
         (setOf (flat_map tags (tracks j))).
  split; [now apply setSessionEntities_run|].
  split; [apply setOf_NoDup|]. split; [apply setOf_NoDup|]. split; [apply setOf_NoDup|].
  split; [intros x; rewrite setOf_In, in_map_iff; split; intros [t [A B]]; eauto|].
  split; [intros x; rewrite setOf_In, in_flat_map; reflexivity|].
  split; [intros x; rewrite setOf_In, in_flat_map; reflexivity|].
  intros name. split; reflexivity.
Qed.

Lemma session_entities_are_sets_witness :
  exists titles,
    NoDup titles /\ In "Arena" titles /\
    exists genres tags',
      sessionEntities (snd (setSessionEntities (sampleConv [arena; starshipBridge; arena]))) =
      [mkEntityType "track" (map entityOf titles);
       mkEntityType "genre" (map entityOf genres);
       mkEntityType "tag" (map entityOf tags')].
Proof.
  destruct (session_entities_are_sets (sampleConv [arena; starshipBridge; arena])
              (mkResponse [arena; starshipBridge; arena]) eq_refl)
    as [titles [genres [tags' [Hrun [Hnd [_ [_ [Hin _]]]]]]]].
  exists titles. split; [exact Hnd|]. split.
  - apply Hin. exists arena. split; [simpl; auto | reflexivity].
  - exists genres, tags'. now rewrite Hrun.
Defined.

(** ** Turns *)

Lemma SameTalk_refl (c : Conv) : SameTalk c c.
Proof. repeat split. Qed.

Lemma SameTalk_trans (a b c : Conv) : SameTalk a b -> SameTalk b c -> SameTalk a c.
Proof. unfold SameTalk. intuition congruence. Qed.

Lemma SameTalk_cacheResults (env : Env) : Frames SameTalk (cacheResults env).
Proof.
  intros conv. destruct (json conv) as [j|] eqn:Hj.
  - rewrite (cacheResults_populated env conv j Hj). apply SameTalk_refl.
  - rewrite (cacheResults_unset env conv Hj).
    destruct (remote env (fetchCalls conv)); repeat split.
Qed.

Lemma SameTalk_setSessionEntities : Frames SameTalk setSessionEntities.
Proof.
  apply frames_setSessionEntities;
    solve [ apply SameTalk_refl | apply SameTalk_trans | intros; repeat split ].
Qed.

(** X16.  While the catalog is unset, a turn whose fetch is rejected ends
    in [FetchFailure] before any handler runs: nothing is asked, the
    storage is as before and the catalog stays unset, so that the next
    turn fetches again.  A turn whose fetch resolves stores the document
    and goes on with it. *)
Theorem turn_fetch (env : Env) (v : Variant) (i : Intent) (c : Conv) :
  json c = None ->
  (remote env (fetchCalls c) = None ->
   fst (turn env v i (nextRequest c)) = Thrown FetchFailure /\
   asked (runTurn env v c i) = [] /\
   json (runTurn env v c i) = None /\
   currentTrack (runTurn env v c i) = currentTrack c /\
   randomCalls (runTurn env v c i) = randomCalls c /\
   fetchCalls (runTurn env v c i) = S (fetchCalls c)) /\
  (forall j,
      remote env (fetchCalls c) = Some j ->
      turn env v i (nextRequest c) =
      afterCache env v i (set_json j (tick_fetch (nextRequest c))) /\
      json (runTurn env v c i) = Some j /\
      fetchCalls (runTurn env v c i) = S (fetchCalls c)).
Proof.
  intros Hj.
  assert (Hj' : json (nextRequest c) = None) by exact Hj.
  split.
  - intros Hr. unfold runTurn.
    rewrite turn_afterCache, (cacheResults_unset env _ Hj').
    cbn [nextRequest fetchCalls]. rewrite Hr. cbn. repeat split. exact Hj.
  - intros j Hr. unfold runTurn.
    rewrite turn_afterCache, (cacheResults_unset env _ Hj').
    cbn [nextRequest fetchCalls]. rewrite Hr.
    split; [reflexivity|].
    match goal with
    | |- context [afterCache env v i ?c0] =>
        destruct (SameCatalog_afterCache env v i c0) as [A [B _]]; rewrite A, B
    end.
    split; reflexivity.
Qed.

Lemma turn_fetch_witness :
  fst (turn sampleEnv PlainApp HelpIntent (nextRequest freshConv)) = Thrown FetchFailure /\
  asked (runTurn sampleEnv PlainApp freshConv HelpIntent) = [].
Proof.
  destruct (proj1 (turn_fetch sampleEnv PlainApp HelpIntent freshConv eq_refl) eq_refl)
    as [A [B _]].
  split; assumption.
Defined.





Lemma WelcomeEntities_run (env : Env) (lastSeen : bool) (conv : Conv)
      (j : TabletopAudioResponse) (first : TabletopAudioTrack)
      (later : list TabletopAudioTrack) :
  json conv = Some j -> tracks j = first :: later ->
  exists text speech,
    WelcomeEntities env lastSeen conv =
    (Returned tt,
     mark_sent
       (add_asked [Simple text speech;
                   Chips [Some (if lastSeen then track_title first else "Help")];
                   Chips [Some "What's new?"];
                   Chips (slots env (tracks j) (randomCalls conv) (seq 0 6))]
                  (add_random 6 conv))).
Proof.
  intros Hj Hfirst.
  assert (Hne : tracks j <> []) by (rewrite Hfirst; discriminate).
  unfold WelcomeEntities.
  rewrite bind_run, (dataTracks_run _ _ Hj). cbv beta iota.
  rewrite bind_run, Hfirst. cbn [firstTrack]. rewrite ret_run. cbv beta iota.
  rewrite <- Hfirst.
  destruct lastSeen; do 2 eexists; repeat run_step Hj Hne; conv_eq_all.
Qed.


(** ** What a turn plays *)

Lemma searchAndPlay_played (env : Env) (searchString : string) (conv : Conv) :
  (currentTrack (snd (searchAndPlay env searchString conv)) = currentTrack conv /\
   mediaAsked (snd (searchAndPlay env searchString conv)) = mediaAsked conv) \/
  (exists t,
      In t (catalogOf conv) /\
      currentTrack (snd (searchAndPlay env searchString conv)) = Some t /\
      mediaAsked (snd (searchAndPlay env searchString conv)) =
      (mediaAsked conv ++ [Media (generateMediaResponse t)])%list).
Proof.
  rewrite searchAndPlay_matchTracks. unfold catalogOf.
  destruct (json conv) as [j|] eqn:Hj; [|left; split; reflexivity].
  destruct (matchTracks (tracks j) searchString) as [t|found|] eqn:Hm.
  - right. exists t.
    assert (Hne : tracks j <> []).
    { apply (matchTracks_nonempty _ searchString). rewrite Hm. discriminate. }
    rewrite (exactReply_run env t conv j Hj Hne).
    apply matchTracks_exact in Hm as [pre [post [E _]]].
    split; [rewrite E; apply in_elt|]. split; [reflexivity|].
    cbn [snd]. unfold mediaAsked. simpl. now rewrite filter_app.
  - right.
    assert (Hne : tracks j <> []).
    { apply (matchTracks_nonempty _ searchString). rewrite Hm. discriminate. }
    destruct (matchTracks_category _ _ _ Hm) as [E [Hfound _]].
    destruct (categoryReply_run env (sanitizeTitle searchString) found conv j Hj Hne Hfound)
      as [t [Hn Hrun]].
    exists t. rewrite Hrun. split.
    + apply nth_error_In in Hn. rewrite E in Hn. now apply filter_In in Hn.
    + split; [reflexivity|].
      cbn [snd]. unfold mediaAsked. simpl. now rewrite filter_app.
  - left. split.
    + apply (frames_noMatchReply SameCurrent SameCurrent_refl SameCurrent_trans
               SameCurrent_random SameCurrent_say).
    + apply (frames_noMatchReply SameMedia SameMedia_refl SameMedia_trans
               (fun c => eq_refl) SameMedia_say).
Qed.

Lemma Repeat_without_track (env : Env) (conv : Conv) :
  currentTrack conv = None ->
  mediaAsked (snd (Repeat env conv)) = mediaAsked conv.
Proof.
  intros Hcur. unfold Repeat. rewrite bind_run, getConv_run. cbv beta iota. rewrite Hcur.
  rewrite bind_run, ask_run. cbv beta iota.
  rewrite (frames_suggest SameMedia SameMedia_refl SameMedia_trans
             (fun c => eq_refl) SameMedia_say env).
  now apply SameMedia_say.
Qed.

Lemma WelcomeEntities_quiet (env : Env) (lastSeen : bool) (conv : Conv) :
  mediaAsked (snd (WelcomeEntities env lastSeen conv)) = mediaAsked conv.
Proof.
  destruct (json conv) as [j|] eqn:Hj.
  - destruct (tracks j) as [|first later] eqn:Hfirst.
    + unfold WelcomeEntities.
      rewrite bind_run, (dataTracks_run _ _ Hj). cbv beta iota. rewrite Hfirst. reflexivity.
    + destruct (WelcomeEntities_run env lastSeen conv j first later Hj Hfirst)
        as [text [speech Hrun]].
      rewrite Hrun. cbn [snd]. unfold mediaAsked. simpl. rewrite filter_app. simpl.
      apply app_nil_r.
  - unfold WelcomeEntities. rewrite bind_run, (dataTracks_unset _ Hj). reflexivity.
Qed.

Ltac same_media :=
  solve [ apply SameMedia_refl | apply SameMedia_trans | apply SameMedia_say
        | intros; reflexivity ].

Ltac same_current :=
  solve [ apply SameCurrent_refl | apply SameCurrent_trans | intros; reflexivity ].

Lemma handle_media (env : Env) (v : Variant) (i : Intent) (conv : Conv) :
  MediaOfCurrent conv (snd (handle env v i conv)).
Proof.
  unfold MediaOfCurrent.
  destruct i as [lastSeen|search|title genre tag| | | | |search|mediaStatus];
    cbn [handle].
  - left. destruct v; [apply frames_WelcomePlain; same_media | apply WelcomeEntities_quiet].
  - destruct (searchAndPlay_played env search conv) as [[_ H]|[t [_ [A B]]]]; eauto.
  - destruct v; [now left|]. unfold PlayEntity. cbv zeta.
    destruct (orElse (orElse title genre) tag) as [s|]; [|now left; apply SameMedia_say].
    destruct (truthy (Some s)); [|now left; apply SameMedia_say].
    destruct (searchAndPlay_played env s conv) as [[_ H]|[t [_ [A B]]]]; eauto.
  - destruct (currentTrack conv) as [t|] eqn:Hcur.
    + right. exists t. destruct (Repeat_with_track env conv t Hcur). auto.
    + left. now apply Repeat_without_track.
  - left. apply frames_Current; same_media.
  - left. apply frames_New; same_media.
  - left. apply frames_Help; same_media.
  - left. apply frames_Search; same_media.
  - left. apply frames_MediaStatus; same_media.
Qed.

Lemma handle_current (env : Env) (v : Variant) (i : Intent) (conv : Conv) :
  CurrentFromCatalog conv (snd (handle env v i conv)).
Proof.
  unfold CurrentFromCatalog.
  destruct i as [lastSeen|search|title genre tag| | | | |search|mediaStatus];
    cbn [handle].
  - left. destruct v; [apply frames_WelcomePlain | apply frames_WelcomeEntities];
            same_current.
  - destruct (searchAndPlay_played env search conv) as [[H _]|[t [A [B _]]]]; eauto.
  - destruct v; [now left|]. unfold PlayEntity. cbv zeta.
    destruct (orElse (orElse title genre) tag) as [s|]; [|now left].
    destruct (truthy (Some s)); [|now left].
    destruct (searchAndPlay_played env s conv) as [[H _]|[t [A [B _]]]]; eauto.
  - left. apply frames_Repeat; same_current.
  - left. apply frames_Current; same_current.
  - left. apply frames_New; same_current.
  - left. apply frames_Help; same_current.
  - left. apply frames_Search; same_current.
  - left. apply frames_MediaStatus; same_current.
Qed.

(** X18.  A turn hands out at most one media object, and when it hands one
    out, it is the media object of the track that is the current track
    when the turn ends. *)
Theorem turn_plays_current (env : Env) (v : Variant) (c : Conv) (i : Intent) :
  mediaAsked (runTurn env v c i) = [] \/
  exists t,
    currentTrack (runTurn env v c i) = Some t /\
    mediaAsked (runTurn env v c i) = [Media (generateMediaResponse t)].
Proof.
  unfold runTurn. rewrite turn_afterCache.
  destruct (SameTalk_cacheResults env (nextRequest c)) as [_ [Hasked _]].
  destruct (cacheResults env (nextRequest c)) as [[[]|e] c1]; cbn [snd] in *.
  - assert (Hc1 : mediaAsked c1 = []) by (unfold mediaAsked; now rewrite Hasked).
    assert (Hafter : MediaOfCurrent c1 (snd (afterCache env v i c1))).
    { unfold afterCache. destruct v; [apply handle_media|].
      rewrite bind_run.
      destruct (SameTalk_setSessionEntities c1) as [_ [Ha _]].
      destruct (setSessionEntities c1) as [[[]|e] c2]; cbn [snd] in *.
      - destruct (handle_media env SessionEntitiesApp i c2) as [H|[t [A B]]].
        + left. rewrite H. unfold mediaAsked. now rewrite Ha.
        + right. exists t. split; [exact A|]. rewrite B. unfold mediaAsked. now rewrite Ha.
      - left. unfold mediaAsked. now rewrite Ha. }
    destruct Hafter as [H|[t [A B]]].
    + left. now rewrite H.
    + right. exists t. split; [exact A|]. now rewrite B, Hc1.
  - left. unfold mediaAsked. now rewrite Hasked.
Qed.

Lemma CurrentInCatalog_turn (env : Env) (v : Variant) (c : Conv) (i : Intent) :
  CurrentInCatalog c -> CurrentInCatalog (runTurn env v c i).
Proof.
  intros Hinv. unfold runTurn. rewrite turn_afterCache.
  assert (Hcache : CurrentInCatalog (snd (cacheResults env (nextRequest c)))).
  { destruct (json c) as [j|] eqn:Hj.
    - rewrite (cacheResults_populated env (nextRequest c) j Hj). exact Hinv.
    - rewrite (cacheResults_unset env (nextRequest c) Hj).
      assert (Hnone : currentTrack c = None).
      { destruct (currentTrack c) as [t|] eqn:E; [|reflexivity].
        specialize (Hinv t E). unfold catalogOf in Hinv. rewrite Hj in Hinv.
        destruct Hinv. }
      destruct (remote env (fetchCalls (nextRequest c))) as [fetched|];
        intros t Ht; cbn in Ht; congruence. }
  destruct (cacheResults env (nextRequest c)) as [[[]|e] c1]; cbn [snd] in *;
    [|exact Hcache].
  assert (Hstep : forall c2, CurrentInCatalog c2 ->
                             CurrentInCatalog (snd (handle env v i c2))).
  { intros c2 H2 t Ht.
    destruct (SameCatalog_handle env v i c2) as [Hjson _].
    unfold catalogOf. rewrite Hjson. fold (catalogOf c2).
    destruct (handle_current env v i c2) as [H|[t' [A B]]].
    - apply H2. congruence.
    - congruence. }
  unfold afterCache. destruct v; [now apply Hstep|].
  rewrite bind_run.
  destruct (SameTalk_setSessionEntities c1) as [Hcur _].
  destruct (SameCatalog_setSessionEntities c1) as [Hjson _].
  destruct (setSessionEntities c1) as [[[]|e] c2]; cbn [snd] in *.
  - apply Hstep. intros t Ht. unfold catalogOf. rewrite Hjson. apply Hcache. congruence.
  - intros t Ht. unfold catalogOf. rewrite Hjson. apply Hcache. congruence.
Qed.

(** X19.  Throughout a session the current track, once there is one, is a
    track of the stored catalog: the handlers only ever store a track they
    took from the catalog, and the catalog does not change under it. *)
Theorem current_track_in_catalog (env : Env) (v : Variant) (intents : list Intent) :
  (forall conv, CurrentInCatalog conv ->
                CurrentInCatalog (runSession env v intents conv)) /\
  (forall t, currentTrack (runSession env v intents freshConv) = Some t ->
             In t (catalogOf (runSession env v intents freshConv))).
Proof.
  assert (H : forall conv, CurrentInCatalog conv ->
                           CurrentInCatalog (runSession env v intents conv)).
  { unfold runSession. induction intents as [|i later IH]; intros conv Hc; [exact Hc|].
    cbn [fold_left]. apply IH, CurrentInCatalog_turn, Hc. }
  split; [exact H|].
  apply H. intros t Ht. discriminate Ht.
Qed.
